(** * DDDG builder (common/DDDG.cpp): a shallow embedding and its properties

    The development follows the layers of the source file:
    - [Codec]: the hex codec ([nibbleVal], [hexStrToBytes], [bytesToHexStr]);
    - [Scan]: the [sscanf] formats that split one trace line into fields;
    - [Engine]: the builder object ([DDDG]) with its renaming state and the
      handlers [parse_instruction_line], [parse_parameter], [parse_result],
      [parse_forward];
    - [Driver]: the loop of [build_initial_dddg] and the flush [output_dddg].

    A failed [assert], a [std::out_of_range] from [at] and a read through a
    null [curr_node] all end the run; they are the [Fatal] results below. *)

From Stdlib Require Import ZArith Lia.
From Stdlib.Strings Require Import String Ascii Byte.
From stdpp Require Import base option list strings gmap.
From coqutil Require Import Datatypes.RecordSettersUsingExistingGetters.

Open Scope Z_scope.

(** ** Results of fallible code *)

Inductive result (A : Type) : Type :=
| Ok (a : A)
| Fatal (msg : string).
Arguments Ok {A} a.
Arguments Fatal {A} msg.

#[global] Instance result_ret : MRet result := λ A a, Ok a.
#[global] Instance result_bind : MBind result := λ A B k r,
  match r with
  | Ok a => k a
  | Fatal m => Fatal m
  end.


(** ** The value codec *)

Module Codec.

(** [kHexTable]. *)
Definition kHexTable : list ascii :=
  ["0"; "1"; "2"; "3"; "4"; "5"; "6"; "7";
   "8"; "9"; "a"; "b"; "c"; "d"; "e"; "f"]%char.

(** The loop of [nibbleVal]: [i] is the index of the head of [tbl] in
    [kHexTable].  When the table is exhausted the source evaluates
    [assert("Invalid character!\n")]; its condition is a string literal, a
    non-null pointer, so the assertion never fires and the function goes on to
    [return 0]. *)
Fixpoint nibbleVal_from (nib : ascii) (tbl : list ascii) (i : Z) : Z :=
  match tbl with
  | [] => 0
  | c :: tbl' => if Ascii.eqb nib c then i else nibbleVal_from nib tbl' (i + 1)
  end.

Definition nibbleVal (nib : ascii) : Z := nibbleVal_from nib kHexTable 0.

(** Conversion of an [int] to [uint8_t]. *)
Definition to_uint8 (v : Z) : byte :=
  default x00 (Byte.of_N (Z.to_N (v mod 256))).

(** The decoding loop of [hexStrToBytes], over the characters from [start]
    on: one byte per pair [str[i]], [str[i + 1]]. *)
Fixpoint decode_pairs (cs : list ascii) : list byte :=
  match cs with
  | hi :: lo :: rest =>
      to_uint8 (Z.shiftl (nibbleVal hi) 4 + nibbleVal lo) :: decode_pairs rest
  | _ => []
  end.

(** [strncmp(str, "0x", 2) == 0]. *)
Definition starts_with_0x (str : string) : bool :=
  match str with
  | String "0" (String "x" _) => true
  | _ => false
  end.

(** [hexStrToBytes].  A Rocq string stands for the characters of the C string
    before its terminating NUL.  The returned list is the content of
    [byte_buf]; its length is [byte_buf_len] (lemma [hexStrToBytes_length]). *)
Definition hexStrToBytes (str : string) : result (list byte) :=
  let len := String.length str in
  if negb (Nat.even len) then Fatal "String must be an even length!"
  else
    let start := if starts_with_0x str then 2%nat else 0%nat in
    Ok (decode_pairs (drop start (list_ascii_of_string str))).

(** [sprintf(buf_ptr, "%02x", data[i])]. *)
Definition hex_digit (n : N) : ascii :=
  nth (N.to_nat n) kHexTable "0"%char.

Definition sprintf_02x (b : byte) : string :=
  let n := Byte.to_N b in
  String (hex_digit (n / 16)) (String (hex_digit (n mod 16)) EmptyString).

(** The loop of [bytesToHexStr]: [i] is the index of the head of [data]. *)
Fixpoint bytesToHexStr_from (data : list byte) (i size : Z)
    (sep_count sep_threshold : Z) : string :=
  match data with
  | [] => EmptyString
  | b :: data' =>
      let sep_count := sep_count + 1 in
      if (sep_count =? sep_threshold) && negb (i =? size - 1) then
        sprintf_02x b +:+ "_" +:+
          bytesToHexStr_from data' (i + 1) size 0 sep_threshold
      else
        sprintf_02x b +:+
          bytesToHexStr_from data' (i + 1) size sep_count sep_threshold
  end.

(** [bytesToHexStr(data, size, separate32)] with [size] the length of
    [data]. *)
Definition bytesToHexStr (data : list byte) (separate32 : bool) : string :=
  let size := Z.of_nat (length data) in
  let sep_threshold := if separate32 then 4 else size + 1 in
  "0x" +:+ bytesToHexStr_from data 0 size 0 sep_threshold.

(** A lowercase hex string, with or without the [0x] prefix. *)
Definition is_nibble (c : ascii) : bool :=
  bool_decide (c ∈ kHexTable).

Definition hex_body (str : string) : list ascii :=
  drop (if starts_with_0x str then 2%nat else 0%nat) (list_ascii_of_string str).

Definition valid_hex (str : string) : bool :=
  Nat.even (String.length str) && forallb is_nibble (hex_body str).

(** The normal form of a hex string: the same digits behind one [0x]. *)
Definition normalize (str : string) : string :=
  if starts_with_0x str then str else "0x" +:+ str.

(** The digits of a byte sequence, without prefix and separators. *)
Definition digits (data : list byte) : string :=
  foldr (λ b acc, sprintf_02x b +:+ acc) EmptyString data.

End Codec.



(** ** Scanning trace lines

    The handlers read their fields with [sscanf].  A conversion that does not
    match leaves the remaining variables of the source unassigned, so what
    the handler then computes is indeterminate; the scanners below return
    [None] on such a line and the handlers turn it into [Fatal].  Numbers are
    unbounded: a literal outside the range of its C type is outside the
    model. *)

Module Scan.

(** [s.find(needle)]: the position of the first occurrence, [None] for
    [npos]. *)
Definition find (needle s : string) : option nat := String.index 0 needle s.

(** [s.substr(0, pos)] and [s.substr(pos)]. *)
Definition substr_to (pos : nat) (s : string) : string :=
  String.substring 0 pos s.
Definition substr_from (pos : nat) (s : string) : string :=
  String.substring pos (String.length s - pos) s.

(** The text between consecutive commas: what consecutive [%[^,],]
    conversions see. *)
Fixpoint fields (s : string) : list string :=
  match s with
  | EmptyString => [EmptyString]
  | String c s' =>
      if Ascii.eqb c "," then EmptyString :: fields s'
      else match fields s' with
           | f :: fs => String c f :: fs
           | [] => [String c EmptyString]
           end
  end.

Definition digit_val (c : ascii) : option Z :=
  let n := Z.of_nat (nat_of_ascii c) in
  if (48 <=? n) && (n <=? 57) then Some (n - 48) else None.

(** The longest run of decimal digits at the head of [s], with what
    follows it. *)
Fixpoint digit_run (s : string) : list Z * string :=
  match s with
  | EmptyString => ([], EmptyString)
  | String c s' =>
      match digit_val c with
      | Some d => let '(ds, rest) := digit_run s' in (d :: ds, rest)
      | None => ([], s)
      end
  end.

Definition decimal (ds : list Z) : Z := foldl (λ acc d, 10 * acc + d) 0 ds.

Fixpoint skip_space (s : string) : string :=
  match s with
  | String c s' => if Ascii.is_space c then skip_space s' else s
  | EmptyString => s
  end.

(** A signed decimal number at the head of [s] behind optional white space:
    its value and the rest, [None] when there is no digit. *)
Definition number (s : string) : option (Z * string) :=
  let s := skip_space s in
  let '(neg, s) :=
    match s with
    | String "-" s' => (true, s')
    | String "+" s' => (false, s')
    | _ => (false, s)
    end in
  match digit_run s with
  | ([], _) => None
  | (ds, rest) => Some (if neg : bool then - decimal ds else decimal ds, rest)
  end.

(** [%d] followed by a comma in the format: the field is a number and
    nothing else. *)
Definition scan_d (field : string) : option Z :=
  match number field with
  | Some (v, EmptyString) => Some v
  | _ => None
  end.

(** [%d], [%u] or [%lu] as the last conversion that matters: what follows the
    digits is not looked at.  The unsigned conversions are modelled on
    literals without a minus sign. *)
Definition scan_d_last (field : string) : option Z :=
  fst <$> number field.

Definition scan_u_last (field : string) : option Z :=
  match number field with
  | Some (v, _) => if 0 <=? v then Some v else None
  | None => None
  end.

(** [%[^,]]: at least one character. *)
Definition scan_text (field : string) : option string :=
  match field with
  | EmptyString => None
  | _ => Some field
  end.

(** [atoi]. *)
Definition atoi (s : string) : Z :=
  match number s with
  | Some (v, _) => v
  | None => 0
  end.

(** [(Addr) strtod(char_value, NULL)] on the decimal integer literals the
    producer writes for addresses and offsets: the value of the leading digit
    run, as a 64-bit unsigned number.  (The conversion through [double] is
    exact below 2^53; fractions and exponents are not modelled, a literal
    without leading digits gives 0.) *)
Definition strtod_Addr (char_value : string) : Z :=
  (decimal (fst (digit_run (skip_space char_value)))) mod 2 ^ 64.

(** [tmp_value.find('.') != std::string::npos]. *)
Definition has_dot (char_value : string) : bool :=
  bool_decide (is_Some (find "." char_value)).

(** The fields of an instruction line,
    ["%d,%[^,],%[^,],%[^,],%d,%lu\n"], with the microop still as the
    integer of the trace. *)
Record InstructionFields := {
  i_line_num : Z;
  i_static_function : string;
  i_bblockid : string;
  i_instid : string;
  i_microop_code : Z;
  i_node_id : Z;
}.

Definition scan_instruction (line : string) : option InstructionFields :=
  match fields line with
  | f1 :: f2 :: f3 :: f4 :: f5 :: f6 :: _ =>
      line_num ← scan_d f1;
      static_function ← scan_text f2;
      bblockid ← scan_text f3;
      instid ← scan_text f4;
      microop ← scan_d f5;
      node_id ← scan_u_last f6;
      Some {| i_line_num := line_num; i_static_function := static_function;
              i_bblockid := bblockid; i_instid := instid;
              i_microop_code := microop; i_node_id := node_id |}
  | _ => None
  end.

(** [sscanf(bblockid, "%[^:]:%u", bblockname, &current_loop_depth)]: the
    loop depth when both conversions match.  When they do not the source
    keeps the previous [current_loop_depth]. *)
Fixpoint after_colon (s : string) : option string :=
  match s with
  | EmptyString => None
  | String c s' => if Ascii.eqb c ":" then Some s' else after_colon s'
  end.

Definition scan_loop_depth (bblockid : string) : option Z :=
  match bblockid with
  | String ":" _ => None
  | _ => after_colon bblockid ≫= scan_u_last
  end.

(** The fields of a parameter, result or forward line,
    ["%d,%[^,],%d,%[^,],\n"]; a PHI parameter has one field more,
    ["%d,%[^,],%d,%[^,],%[^,],\n"]. *)
Record ValueFields := {
  v_size : Z;
  v_char_value : string;
  v_is_reg : Z;
  v_label : string;
  v_prev_bbid : string;
}.

Definition scan_value (phi : bool) (line : string) : option ValueFields :=
  match fields line with
  | f1 :: f2 :: f3 :: f4 :: rest =>
      size ← scan_d f1;
      char_value ← scan_text f2;
      is_reg ← scan_d f3;
      label ← scan_text f4;
      prev_bbid ← (if phi then head rest ≫= scan_text else Some EmptyString);
      Some {| v_size := size; v_char_value := char_value; v_is_reg := is_reg;
              v_label := label; v_prev_bbid := prev_bbid |}
  | _ => None
  end.

End Scan.

(** ** The builder *)

Module Engine.
Import Scan.

(** Modelled from the spec: the microop tag set.  The integer codes
    ([opcode_func.h]) are not part of the sources at hand; the spec (section 3)
    names the tags the builder tells apart and the families behind the
    predicates of [ExecNode].  The remaining opcodes keep their code. *)
Inductive Microop : Type :=
| LLVM_IR_Call | LLVM_IR_Ret | LLVM_IR_PHI
| LLVM_IR_Load | LLVM_IR_Store | LLVM_IR_GetElementPtr | LLVM_IR_Alloca
| LLVM_IR_DMALoad | LLVM_IR_DMAStore | LLVM_IR_DMAFence
| FloatingPointOp (code : Z)
| TrigonometricOp (code : Z)
| OtherOp (code : Z).

#[global] Instance Microop_eq_dec : EqDecision Microop.
Proof. solve_decision. Defined.

(** What the builder takes from its surroundings: the address mask
    ([ADDR_MASK], a macro of a header that is not at hand),
    [datapath->isReadyMode()], the decoding of the trace's microop integers,
    and whether [ExecNode::is_dma_op] counts a fence, which neither the sources
    at hand nor the spec settle. *)
Record Env := {
  ADDR_MASK : Z;
  isReadyMode : bool;
  microop_of_code : Z → Microop;
  fence_is_dma_op : bool;
}.

(** Modelled from the spec: [BYTE = 8] (section 6). *)
Definition BYTE : Z := 8.

(** Modelled from the spec: the predicates of [ExecNode] (section 3). *)
Definition is_call_op (m : Microop) : bool := bool_decide (m = LLVM_IR_Call).
Definition is_ret_op (m : Microop) : bool := bool_decide (m = LLVM_IR_Ret).
Definition is_dma_load (m : Microop) : bool := bool_decide (m = LLVM_IR_DMALoad).
Definition is_dma_store (m : Microop) : bool := bool_decide (m = LLVM_IR_DMAStore).
Definition is_dma_op (env : Env) (m : Microop) : bool :=
  match m with
  | LLVM_IR_DMALoad | LLVM_IR_DMAStore => true
  | LLVM_IR_DMAFence => fence_is_dma_op env
  | _ => false
  end.
Definition is_fp_op (m : Microop) : bool :=
  match m with FloatingPointOp _ => true | _ => false end.
Definition is_trig_op (m : Microop) : bool :=
  match m with TrigonometricOp _ => true | _ => false end.

(** [DynamicFunction]: a function and the index of one invocation of it;
    [DynamicVariable]: a variable of a dynamic function.  Interned symbols
    ([Function*], [Variable*]) are their names; [None] is the null
    function of a default-constructed [DynamicFunction]. *)
Definition DynamicFunction : Type := option string * Z.
Definition DynamicVariable : Type := DynamicFunction * string.

Inductive ValueType : Type := Integer | Float | Vector.

#[global] Instance ValueType_eq_dec : EqDecision ValueType.
Proof. solve_decision. Defined.

(** [MemAccess]: the scalar variant without its bit pattern
    ([FP2BitsConverter] works on the floating-point value, which is not
    modelled), the vector variant with its bytes. *)
Inductive MemAccess : Type :=
| ScalarMemAccess (is_float : bool) (size vaddr : Z)
| VectorMemAccess (bytes : list byte) (size vaddr : Z).

Definition set_vaddr (vaddr : Z) (m : MemAccess) : MemAccess :=
  match m with
  | ScalarMemAccess f s _ => ScalarMemAccess f s vaddr
  | VectorMemAccess b s _ => VectorMemAccess b s vaddr
  end.

(** [dma_mem_access(base, src_off, dst_off, size)]. *)
Record DmaMemAccess := {
  dma_base_addr : Z;
  dma_src_off : Z;
  dma_dst_off : Z;
  dma_size : Z;
}.

(** [ExecNode], with the attributes the builder sets on it.  Variable and
    array label, which only the collaborating passes read, are left out. *)
Record ExecNode := {
  node_id : Z;
  microop : Microop;
  line_num : Z;
  static_inst : string;
  static_function : string;
  basic_block : string;
  loop_depth : Z;
  dynamic_invocation : Z;
  mem_access : option MemAccess;
  dma_mem_access : option DmaMemAccess;
  double_precision : bool;
}.

(** An entry of the register edge table: [reg_edge_t]. *)
Record reg_edge_t := { sink_node : Z; par_id : Z }.

(** The [DDDG] object together with the parts of [Program] and of the source
    manager that it updates.  [nodes] is [program->nodes]; [invocations] holds
    the invocation counter of every interned function; [curr_node] and
    [last_ret] are pointers to nodes and are kept as the id of the node they
    point to, [None] for the null pointer.  [curr_microop] and [prev_microop]
    are [None] while the source has not assigned them. *)
Record DDDG := {
  nodes : list ExecNode;
  call_arg_map : list (DynamicVariable * DynamicVariable);
  labelmap_lines : list string;
  invocations : gmap string Z;
  num_of_reg_dep : Z;
  num_of_mem_dep : Z;
  num_of_ctrl_dep : Z;
  num_of_instructions : Z;
  current_node_id : Z;
  curr_node : option Z;
  last_parameter : bool;
  num_of_parameters : Z;
  last_dma_fence : Z;
  prev_bblock : string;
  curr_bblock : string;
  current_loop_depth : Z;
  callee_function : option string;
  last_ret : option Z;
  prev_microop : option Microop;
  curr_microop : option Microop;
  curr_instid : string;
  active_method : list DynamicFunction;
  curr_dynamic_function : DynamicFunction;
  callee_dynamic_function : DynamicFunction;
  unique_reg_in_caller_func : option DynamicVariable;
  last_call_source : Z;
  register_last_written : gmap DynamicVariable Z;
  address_last_written : gmap Z Z;
  register_edge_table : list (Z * reg_edge_t);
  memory_edge_table : gmap Z (gset Z);
  control_edge_table : gmap Z (gset Z);
  nodes_since_last_ret : list Z;
  last_dma_nodes : list Z;
  parameter_value_per_inst : list Z;
  parameter_size_per_inst : list Z;
  parameter_label_per_inst : list string;
}.

(** The constructor [DDDG::DDDG], on an empty program. *)
Definition init : DDDG := {|
  nodes := [];
  call_arg_map := [];
  labelmap_lines := [];
  invocations := ∅;
  num_of_reg_dep := 0;
  num_of_mem_dep := 0;
  num_of_ctrl_dep := 0;
  num_of_instructions := -1;
  current_node_id := -1;
  curr_node := None;
  last_parameter := false;
  num_of_parameters := 0;
  last_dma_fence := -1;
  prev_bblock := "-1";
  curr_bblock := "-1";
  current_loop_depth := 0;
  callee_function := None;
  last_ret := None;
  prev_microop := None;
  curr_microop := None;
  curr_instid := EmptyString;
  active_method := [];
  curr_dynamic_function := (None, 0);
  callee_dynamic_function := (None, 0);
  unique_reg_in_caller_func := None;
  last_call_source := -1;
  register_last_written := ∅;
  address_last_written := ∅;
  register_edge_table := [];
  memory_edge_table := ∅;
  control_edge_table := ∅;
  nodes_since_last_ret := [];
  last_dma_nodes := [];
  parameter_value_per_inst := [];
  parameter_size_per_inst := [];
  parameter_label_per_inst := [];
|}.


(** *** Edge tables *)

(** The insertion shared by [handle_post_write_dependency] and
    [insert_control_dependence]: make sure the source has a sink set, insert
    the sink, and tell whether the set grew ([result.second]). *)
Definition insert_sink (source sink : Z) (table : gmap Z (gset Z))
    : gmap Z (gset Z) * bool :=
  let table :=
    match table !! source with
    | None => <[source := ∅]> table
    | Some _ => table
    end in
  let sink_list := default ∅ (table !! source) in
  (<[source := {[sink]} ∪ sink_list]> table, bool_decide (sink ∉ sink_list)).

(** [DDDG::insert_control_dependence]. *)
Definition insert_control_dependence (source_node dest_node : Z) (st : DDDG)
    : DDDG :=
  let '(table, inserted) :=
    insert_sink source_node dest_node (control_edge_table st) in
  let st := st <| control_edge_table := table |> in
  if inserted then st <| num_of_ctrl_dep ::= Z.succ |> else st.

(** One round of the loop of [handle_post_write_dependency]. *)
Definition post_write_at (addr sink_node : Z) (st : DDDG) : DDDG :=
  match address_last_written st !! addr with
  | Some source_inst =>
      let '(table, inserted) :=
        insert_sink source_inst sink_node (memory_edge_table st) in
      let st := st <| memory_edge_table := table |> in
      if inserted then st <| num_of_mem_dep ::= Z.succ |> else st
  | None => st
  end.

Fixpoint post_write_from (rounds : nat) (addr sink_node : Z) (st : DDDG)
    : DDDG :=
  match rounds with
  | O => st
  | S rounds =>
      post_write_from rounds (addr + 1) sink_node (post_write_at addr sink_node st)
  end.

(** The number of rounds of [for (addr = start; addr < start + size; addr++)]
    on 64-bit unsigned numbers: the bound [start + size] wraps around. *)
Definition range_rounds (start_addr size : Z) : nat :=
  Z.to_nat ((start_addr + size) mod 2 ^ 64 - start_addr).

(** [DDDG::handle_post_write_dependency]. *)
Definition handle_post_write_dependency (start_addr size sink_node : Z)
    (st : DDDG) : DDDG :=
  post_write_from (range_rounds start_addr size) start_addr sink_node st.

(** *** The program store and the source manager *)

(** Modelled from the spec: [Program::insertNode] "asserts id == next and
    returns the created node" (section 4.3); node ids are dense and equal the
    position of the node. *)
Definition insertNode (id : Z) (m : Microop) (ns : list ExecNode)
    : result (list ExecNode) :=
  if bool_decide (id = Z.of_nat (length ns)) then
    Ok (ns ++ [{| node_id := id; microop := m; line_num := 0;
                  static_inst := EmptyString; static_function := EmptyString;
                  basic_block := EmptyString; loop_depth := 0;
                  dynamic_invocation := 0; mem_access := None;
                  dma_mem_access := None; double_precision := false |}])
  else Fatal "insertNode: node id is not the next id".

(** [program->nodes.at(id)]. *)
Definition node_at (id : Z) (ns : list ExecNode) : option ExecNode :=
  if 0 <=? id then ns !! Z.to_nat id else None.

(** An update through the pointer [curr_node]. *)
Definition update_node (id : Z) (f : ExecNode → ExecNode) (st : DDDG) : DDDG :=
  if 0 <=? id then st <| nodes ::= alter f (Z.to_nat id) |> else st.

(** [srcManager.insert<Function>(name)]: a new function starts with no
    invocation. *)
Definition insert_Function (name : string) (st : DDDG) : DDDG :=
  match invocations st !! name with
  | Some _ => st
  | None => st <| invocations ::= <[name := 0]> |>
  end.

Definition get_invocations (name : string) (st : DDDG) : Z :=
  default 0 (invocations st !! name).

Definition increment_invocations (name : string) (st : DDDG) : DDDG :=
  st <| invocations ::= <[name := get_invocations name st + 1]> |>.

(** [DynamicFunction(f)]: the invocation of [f] that is running. *)
Definition current_invocation (name : string) (st : DDDG) : DynamicFunction :=
  (Some name, get_invocations name st).

(** [active_method.top()] after a push. *)
Definition push_method (name : string) (st : DDDG) : DDDG :=
  let f := current_invocation name st in
  st <| active_method ::= cons f |> <| curr_dynamic_function := f |>.

Section WithEnv.
Context (env : Env).

(** [DDDG::create_mem_access]. *)
Definition create_mem_access (value_str : string) (mem_size_bytes : Z)
    (value_type : ValueType) : result MemAccess :=
  match value_type with
  | Vector =>
      bytes ← Codec.hexStrToBytes value_str;
      Ok (VectorMemAccess bytes mem_size_bytes 0)
  | _ =>
      Ok (ScalarMemAccess (bool_decide (value_type = Float)) mem_size_bytes 0)
  end.

(** [size > 64 ? Vector : find('.') != npos ? Float : Integer]. *)
Definition value_type_of (size : Z) (char_value : string) : ValueType :=
  if 64 <? size then Vector else if has_dot char_value then Float else Integer.

(** *** Instruction lines *)

(** The call and return fence of [parse_instruction_line]. *)
Definition function_boundary (m : Microop) (st : DDDG) : DDDG :=
  let current := current_node_id st in
  if is_ret_op m || is_call_op m then
    let st :=
      foldl (λ st node_id, insert_control_dependence node_id current st)
        st (nodes_since_last_ret st) in
    let st := st <| nodes_since_last_ret := [] |> in
    let st :=
      match last_ret st with
      | Some last =>
          if bool_decide (last ≠ current)
          then insert_control_dependence last current st else st
      | None => st
      end in
    st <| last_ret := Some current |>
  else if negb (is_dma_op env m) then
    st <| nodes_since_last_ret ::= (λ l, l ++ [current]) |>
  else st.

(** The dynamic call stack of [parse_instruction_line]; the result carries
    [func_invocation_count]. *)
Definition track_invocation (curr_function : string) (m : Microop) (st : DDDG)
    : DDDG * Z :=
  let '(st, func_invocation_count, curr_func_found) :=
    match active_method st with
    | top :: _ =>
        let prev_function := top.1 in
        let prev_counts :=
          match prev_function with
          | Some f => get_invocations f st
          | None => 0
          end in
        let '(st, count, found) :=
          if bool_decide (Some curr_function = prev_function) then
            if bool_decide (prev_microop st = Some LLVM_IR_Call) &&
               bool_decide (callee_function st = Some curr_function)
            then
              let st := increment_invocations curr_function st in
              (push_method curr_function st,
               get_invocations curr_function st, true)
            else (st <| curr_dynamic_function := top |>, prev_counts, true)
          else (st, 0, false) in
        let st :=
          if bool_decide (m = LLVM_IR_Ret)
          then st <| active_method ::= tail |> else st in
        (st, count, found)
    | [] => (st, 0, false)
    end in
  if curr_func_found then (st, func_invocation_count)
  else
    let st := increment_invocations curr_function st in
    (push_method curr_function st, get_invocations curr_function st).

(** The DMA ordering of [parse_instruction_line]. *)
Definition dma_ordering (m : Microop) (st : DDDG) : DDDG :=
  let current := current_node_id st in
  if bool_decide (m = LLVM_IR_DMAFence) then
    let st := st <| last_dma_fence := current |> in
    let st :=
      foldl (λ st node_id,
               insert_control_dependence node_id (last_dma_fence st) st)
        st (last_dma_nodes st) in
    st <| last_dma_nodes := [] |>
  else if bool_decide (m = LLVM_IR_DMALoad) || bool_decide (m = LLVM_IR_DMAStore)
  then
    let st :=
      if bool_decide (last_dma_fence st ≠ -1)
      then insert_control_dependence (last_dma_fence st) current st else st in
    st <| last_dma_nodes ::= (λ l, l ++ [current]) |>
  else st.

(** [DDDG::parse_instruction_line].  The integer of the trace is decoded once;
    the cast to [uint8_t] that the source applies to it for [curr_microop] is
    the identity on the producer's codes. *)
Definition parse_instruction_line (line : string) (st : DDDG) : result DDDG :=
  match scan_instruction line with
  | None => Fatal "instruction line does not match its format"
  | Some f =>
      let m := microop_of_code env (i_microop_code f) in
      let st := st <| current_node_id := i_node_id f |>
                   <| num_of_instructions ::= Z.succ |>
                   <| prev_microop := curr_microop st |>
                   <| curr_microop := Some m |>
                   <| curr_instid := i_instid f |> in
      let st :=
        match scan_loop_depth (i_bblockid f) with
        | Some depth => st <| current_loop_depth := depth |>
        | None => st
        end in
      if negb (current_loop_depth st <? 1000)
      then Fatal "Loop depth is much higher than expected!"
      else
        let curr_function := i_static_function f in
        let st := insert_Function curr_function st in
        ns ← insertNode (current_node_id st) m (nodes st);
        let st := st <| nodes := ns |> <| curr_node := Some (current_node_id st) |> in
        let st :=
          update_node (current_node_id st)
            (λ n, n <| line_num := i_line_num f |>
                    <| static_inst := i_instid f |>
                    <| static_function := curr_function |>
                    <| basic_block := substr_to
                         (default (String.length (i_bblockid f))
                            (find ":" (i_bblockid f))) (i_bblockid f) |>
                    <| loop_depth := current_loop_depth st |>) st in
        let st := function_boundary m st in
        let '(st, func_invocation_count) := track_invocation curr_function m st in
        let st :=
          if bool_decide (m = LLVM_IR_PHI) &&
             bool_decide (prev_microop st ≠ Some LLVM_IR_PHI)
          then st <| prev_bblock := curr_bblock st |> else st in
        let st := dma_ordering m st in
        let st := st <| curr_bblock := i_bblockid f |> in
        let st :=
          update_node (current_node_id st)
            (λ n, n <| dynamic_invocation := func_invocation_count |>) st in
        Ok (st <| last_parameter := false |>
               <| parameter_value_per_inst := [] |>
               <| parameter_size_per_inst := [] |>
               <| parameter_label_per_inst := [] |>)
  end.

(** *** Parameter lines *)

(** The microop of the node [curr_node] points to; a null [curr_node] ends
    the run. *)
Definition curr_node_microop (st : DDDG) : result Microop :=
  match curr_node st with
  | None => Fatal "no current node"
  | Some id =>
      match node_at id (nodes st) with
      | Some n => Ok (microop n)
      | None => Fatal "no current node"
      end
  end.

(** The register part of [parse_parameter] ([if (is_reg) ...]). *)
Definition read_register (label : string) (param_tag : Z) (st : DDDG) : DDDG :=
  let unique_reg_ref : DynamicVariable := (curr_dynamic_function st, label) in
  let is_call := bool_decide (curr_microop st = Some LLVM_IR_Call) in
  let st :=
    if is_call then st <| unique_reg_in_caller_func := Some unique_reg_ref |>
    else st in
  match register_last_written st !! unique_reg_ref with
  | Some writer =>
      let tmp_edge := {| sink_node := current_node_id st; par_id := param_tag |} in
      let st := st <| register_edge_table ::= (λ t, t ++ [(writer, tmp_edge)]) |>
                   <| num_of_reg_dep ::= Z.succ |> in
      if is_call then st <| last_call_source := writer |> else st
  | None =>
      if (bool_decide (curr_microop st = Some LLVM_IR_Store) &&
          bool_decide (param_tag = 2)) ||
         (bool_decide (curr_microop st = Some LLVM_IR_Load) &&
          bool_decide (param_tag = 1))
      then st <| register_last_written ::= <[unique_reg_ref := current_node_id st]> |>
      else st
  end.

(** The branch of [parse_parameter] for slot 2 of a Store. *)
Definition store_address (st : DDDG) : result DDDG :=
  let mem_address := default 0 (head (parameter_value_per_inst st)) in
  let mem_size :=
    (Z.quot (default 0 (last (parameter_size_per_inst st))) BYTE) mod 2 ^ 32 in
  match address_last_written st !! mem_address with
  | Some last_node_to_write =>
      match node_at last_node_to_write (nodes st) with
      | None => Fatal "nodes.at: no such node"
      | Some writer =>
          let st :=
            if is_dma_load (microop writer)
            then handle_post_write_dependency mem_address mem_size
                   (current_node_id st) st
            else st in
          Ok (st <| address_last_written ::=
                      <[mem_address := current_node_id st]> |>)
      end
  | None =>
      Ok (st <| address_last_written ::= <[mem_address := current_node_id st]> |>)
  end.

(** The address-carrying part of [parse_parameter]. *)
Definition record_operand (f : ValueFields) (param_tag : Z) (st : DDDG)
    : result DDDG :=
  let value_type := value_type_of (v_size f) (v_char_value f) in
  let value :=
    if bool_decide (value_type = Vector) then 0 else strtod_Addr (v_char_value f) in
  let st := st <| parameter_value_per_inst ::=
                    (λ l, l ++ [Z.land value (ADDR_MASK env)]) |>
               <| parameter_size_per_inst ::= (λ l, l ++ [v_size f]) |>
               <| parameter_label_per_inst ::= (λ l, l ++ [v_label f]) |> in
  if bool_decide (param_tag = 1) &&
     bool_decide (curr_microop st = Some LLVM_IR_Load) then Ok st
  else if bool_decide (param_tag = 1) &&
          bool_decide (curr_microop st = Some LLVM_IR_Store) then
    let mem_address := default 0 (head (parameter_value_per_inst st)) in
    let mem_size := (Z.quot (v_size f) BYTE) mod 2 ^ 64 in
    access ← create_mem_access (v_char_value f) mem_size value_type;
    Ok (update_node (current_node_id st)
          (λ n, n <| mem_access := Some (set_vaddr mem_address access) |>) st)
  else if bool_decide (param_tag = 2) &&
          bool_decide (curr_microop st = Some LLVM_IR_Store) then
    store_address st
  else Ok st.

(** [DDDG::parse_parameter]. *)
Definition parse_parameter (line : string) (param_tag : Z) (st : DDDG)
    : result DDDG :=
  node_microop ← curr_node_microop st;
  let phi := bool_decide (curr_microop st = Some LLVM_IR_PHI) in
  match scan_value phi line with
  | None => Fatal "parameter line does not match its format"
  | Some f =>
      if phi && negb (String.eqb (prev_bblock st) (v_prev_bbid f)) then Ok st
      else
        let st :=
          if last_parameter st then st
          else
            let st := st <| num_of_parameters := param_tag |> in
            let st :=
              if bool_decide (curr_microop st = Some LLVM_IR_Call)
              then insert_Function (v_label f) st
                     <| callee_function := Some (v_label f) |>
              else st in
            match callee_function st with
            | Some callee =>
                st <| callee_dynamic_function :=
                        (Some callee, get_invocations callee st + 1) |>
            | None => st
            end in
        let st := st <| last_parameter := true |> <| last_call_source := -1 |> in
        let st :=
          if bool_decide (v_is_reg f ≠ 0)
          then read_register (v_label f) param_tag st else st in
        if bool_decide (curr_microop st = Some LLVM_IR_Load) ||
           bool_decide (curr_microop st = Some LLVM_IR_Store) ||
           bool_decide (curr_microop st = Some LLVM_IR_GetElementPtr) ||
           is_dma_op env node_microop
        then record_operand f param_tag st
        else Ok st
  end.

(** *** Result lines *)

(** The DMA interface version of [parse_result]: base address, source
    offset, destination offset and size from the operands seen.  For a count
    other than 4 and 5 the source evaluates
    [assert("Unknown DMA interface version!")], whose condition is a non-null
    string literal: the assertion never fires and the four values keep their
    initial 0. *)
Definition dma_interface (operands : list Z) : DmaMemAccess :=
  match operands with
  | [_; base_addr; off; size] =>
      {| dma_base_addr := base_addr; dma_src_off := off;
         dma_dst_off := off; dma_size := size |}
  | [_; base_addr; src_off; dst_off; size] =>
      {| dma_base_addr := base_addr; dma_src_off := src_off;
         dma_dst_off := dst_off; dma_size := size |}
  | _ =>
      {| dma_base_addr := 0; dma_src_off := 0; dma_dst_off := 0; dma_size := 0 |}
  end.

(** The loop of [parse_result] that makes a DMA load the last writer of its
    range. *)
Fixpoint mark_written_from (rounds : nat) (addr : Z) (st : DDDG) : DDDG :=
  match rounds with
  | O => st
  | S rounds =>
      mark_written_from rounds (addr + 1)
        (st <| address_last_written ::= <[addr := current_node_id st]> |>)
  end.

(** The branch of [parse_result] for a DMA operation. *)
Definition dma_result (st : DDDG) : DDDG :=
  let access := dma_interface (parameter_value_per_inst st) in
  let st :=
    update_node (current_node_id st)
      (λ n, n <| dma_mem_access := Some access |>) st in
  if bool_decide (curr_microop st = Some LLVM_IR_DMALoad) then
    if negb (isReadyMode env) then
      let start_addr := (dma_base_addr access + dma_dst_off access) mod 2 ^ 64 in
      mark_written_from (range_rounds start_addr (dma_size access)) start_addr st
    else st
  else
    let start_addr := (dma_base_addr access + dma_src_off access) mod 2 ^ 64 in
    handle_post_write_dependency start_addr (dma_size access)
      (current_node_id st) st.

(** [DDDG::parse_result]. *)
Definition parse_result (line : string) (st : DDDG) : result DDDG :=
  node_microop ← curr_node_microop st;
  match scan_value false line with
  | None => Fatal "result line does not match its format"
  | Some f =>
      let value_type := value_type_of (v_size f) (v_char_value f) in
      let st :=
        if is_fp_op node_microop && bool_decide (v_size f = 64)
        then update_node (current_node_id st)
               (λ n, n <| double_precision := true |>) st
        else st in
      if bool_decide (v_is_reg f = 0) then Fatal "assert(is_reg)"
      else
        let unique_reg_ref : DynamicVariable :=
          (curr_dynamic_function st, v_label f) in
        let st := st <| register_last_written ::=
                          <[unique_reg_ref := current_node_id st]> |> in
        if bool_decide (curr_microop st = Some LLVM_IR_Alloca) then Ok st
        else if bool_decide (curr_microop st = Some LLVM_IR_Load) then
          match last (parameter_value_per_inst st) with
          | None => Fatal "back() of an empty vector"
          | Some mem_address =>
              let mem_size := (Z.quot (v_size f) BYTE) mod 2 ^ 64 in
              access ← create_mem_access (v_char_value f) mem_size value_type;
              let st :=
                handle_post_write_dependency mem_address mem_size
                  (current_node_id st) st in
              Ok (update_node (current_node_id st)
                    (λ n, n <| mem_access :=
                                 Some (set_vaddr mem_address access) |>) st)
          end
        else if is_dma_op env node_microop then Ok (dma_result st)
        else Ok st
  end.

(** *** Forward lines *)

(** [DDDG::parse_forward]. *)
Definition parse_forward (line : string) (st : DDDG) : result DDDG :=
  node_microop ← curr_node_microop st;
  if is_dma_op env node_microop || is_trig_op node_microop then Ok st
  else
    match scan_value false line with
    | None => Fatal "forward line does not match its format"
    | Some f =>
        if bool_decide (v_is_reg f = 0) then Fatal "assert(is_reg)"
        else if negb (is_call_op node_microop)
        then Fatal "assert(curr_node->is_call_op())"
        else
          let unique_reg_ref : DynamicVariable :=
            (callee_dynamic_function st, v_label f) in
          let st :=
            match unique_reg_in_caller_func st with
            | Some caller_ref =>
                st <| call_arg_map ::= (λ m, m ++ [(unique_reg_ref, caller_ref)]) |>
                   <| unique_reg_in_caller_func := None |>
            | None => st
            end in
          let tmp_written_inst :=
            if bool_decide (last_call_source st ≠ -1)
            then last_call_source st else current_node_id st in
          Ok (st <| register_last_written ::=
                      <[unique_reg_ref := tmp_written_inst]> |>)
    end.

End WithEnv.

End Engine.

(** ** The driver *)

Module Driver.
Import Scan Engine.

(** Modelled from the spec: an edge handed to [Program::addEdge] carries
    [MEMORY_EDGE], [CONTROL_EDGE] or the parameter slot of a register
    dependence (section 3). *)
Inductive EdgeLabel : Type :=
| RegisterEdge (par_id : Z)
| MEMORY_EDGE
| CONTROL_EDGE.

#[global] Instance EdgeLabel_eq_dec : EqDecision EdgeLabel.
Proof. solve_decision. Defined.

(** One call [program->addEdge(source, sink, label)]. *)
Definition Edge : Type := Z * Z * EdgeLabel.

(** The calls of one of the two loops of [output_dddg] over a table of sink
    sets. *)
Definition table_edges (label : EdgeLabel) (table : gmap Z (gset Z))
    : list Edge :=
  '(source, sink_list) ← map_to_list table;
  (λ sink_node, (source, sink_node, label)) <$> elements sink_list.

(** [DDDG::output_dddg]: the calls of [addEdge], register edges first, then
    memory edges, then control edges.  Inside a table the calls come in the
    order of the finite map, which need not be the order of [std::map]. *)
Definition output_dddg (st : DDDG) : list Edge :=
  ((λ e, (e.1, sink_node e.2, RegisterEdge (par_id e.2)))
     <$> register_edge_table st)
  ++ table_edges MEMORY_EDGE (memory_edge_table st)
  ++ table_edges CONTROL_EDGE (control_edge_table st).

(** The local variables of [build_initial_dddg] next to the builder. *)
Record Locals := {
  dddg : DDDG;
  first_function : string;
  seen_first_line : bool;
  first_function_returned : bool;
  in_labelmap_section : bool;
  labelmap_parsed_or_not_present : bool;
}.

Definition start : Locals := {|
  dddg := init;
  first_function := EmptyString;
  seen_first_line := false;
  first_function_returned := false;
  in_labelmap_section := false;
  labelmap_parsed_or_not_present := false;
|}.

(** How one round of the loop ends. *)
Inductive Next : Type :=
| Continue (s : Locals)
| Break (s : Locals).

(** [DDDG::parse_labelmap_line].  The label map is read by the collaborating
    passes only; its lines are kept as they come. *)
Definition parse_labelmap_line (line : string) (st : DDDG) : DDDG :=
  st <| labelmap_lines ::= (λ l, l ++ [line]) |>.

Section WithEnv.
Context (env : Env).

(** [DDDG::parse_function_name]. *)
Definition parse_function_name (line : string) : option string :=
  i_static_function <$> scan_instruction line.

(** [DDDG::is_function_returned]. *)
Definition is_function_returned (line target_function : string) : option bool :=
  f ← scan_instruction line;
  Some (bool_decide (microop_of_code env (i_microop_code f) = LLVM_IR_Ret) &&
        String.eqb target_function (i_static_function f)).

(** The part of a round behind the label map scan: the tag and the
    dispatch. *)
Definition dispatch (wholeline : string) (s : Locals) : result Next :=
  match find "," wholeline with
  | None => if first_function_returned s then Ok (Break s) else Ok (Continue s)
  | Some pos_end_tag =>
      let s := s <| labelmap_parsed_or_not_present := true |> in
      let tag := substr_to pos_end_tag wholeline in
      let line_left := substr_from (pos_end_tag + 1) wholeline in
      if String.eqb tag "0" then
        match parse_function_name line_left,
              is_function_returned line_left
                (if seen_first_line s then first_function s
                 else default EmptyString (parse_function_name line_left)) with
        | Some name, Some returned =>
            let s :=
              if seen_first_line s then s
              else s <| seen_first_line := true |> <| first_function := name |> in
            let s := s <| first_function_returned := returned |> in
            st ← parse_instruction_line env line_left (dddg s);
            Ok (Continue (s <| dddg := st |>))
        | _, _ => Fatal "instruction line does not match its format"
        end
      else if String.eqb tag "r" then
        st ← parse_result env line_left (dddg s);
        Ok (Continue (s <| dddg := st |>))
      else if String.eqb tag "f" then
        st ← parse_forward env line_left (dddg s);
        Ok (Continue (s <| dddg := st |>))
      else
        st ← parse_parameter env line_left (atoi tag) (dddg s);
        Ok (Continue (s <| dddg := st |>))
  end.

(** One round of the [while] loop of [build_initial_dddg] on the line that
    [gzgets] delivered. *)
Definition round (wholeline : string) (s : Locals) : result Next :=
  if negb (labelmap_parsed_or_not_present s) then
    if negb (in_labelmap_section s) then
      if bool_decide (is_Some (find "%%%% LABEL MAP START %%%%" wholeline))
      then Ok (Continue (s <| in_labelmap_section := true |>))
      else dispatch wholeline s
    else
      if bool_decide (is_Some (find "%%%% LABEL MAP END %%%%" wholeline))
      then Ok (Continue (s <| labelmap_parsed_or_not_present := true |>
                           <| in_labelmap_section := false |>))
      else dispatch wholeline (s <| dddg ::= parse_labelmap_line wholeline |>)
  else dispatch wholeline s.

(** The loop: one round per line until the trace is exhausted or a round
    breaks out. *)
Fixpoint rounds (trace : list string) (s : Locals) : result Locals :=
  match trace with
  | [] => Ok s
  | wholeline :: trace' =>
      next ← round wholeline s;
      match next with
      | Continue s' => rounds trace' s'
      | Break s' => Ok s'
      end
  end.

(** What [build_initial_dddg] leaves behind: the builder, and the calls of
    [addEdge] it made; [None] when it returned [END_OF_TRACE] without a
    flush. *)
Record Built := {
  final : DDDG;
  added_edges : option (list Edge);
}.

(** [DDDG::build_initial_dddg] on the lines of the trace (each as [gzgets]
    delivers it: at most 255 characters, the newline included). *)
Definition build_initial_dddg (trace : list string) : result Built :=
  s ← rounds trace start;
  if seen_first_line s then
    Ok {| final := dddg s; added_edges := Some (output_dddg (dddg s)) |}
  else
    Ok {| final := dddg s; added_edges := None |}.

End WithEnv.

(** *** A concrete surrounding for examples

    The codes below are those of the instrumented producer this builder is
    distributed with; any other enumeration serves as well, the properties
    proved later do not depend on it. *)
Definition example_codes (code : Z) : Microop :=
  if code =? 1 then LLVM_IR_Ret
  else if code =? 26 then LLVM_IR_Alloca
  else if code =? 27 then LLVM_IR_Load
  else if code =? 28 then LLVM_IR_Store
  else if code =? 29 then LLVM_IR_GetElementPtr
  else if code =? 48 then LLVM_IR_PHI
  else if code =? 49 then LLVM_IR_Call
  else if code =? 97 then LLVM_IR_DMAFence
  else if code =? 98 then LLVM_IR_DMAStore
  else if code =? 99 then LLVM_IR_DMALoad
  else OtherOp code.

Definition example_env (ready_mode : bool) : Env := {|
  ADDR_MASK := 2 ^ 48 - 1;
  isReadyMode := ready_mode;
  microop_of_code := example_codes;
  fence_is_dma_op := true;
|}.

(** A line with its newline. *)
Definition ln (text : string) : string := text +:+ String "010" EmptyString.

End Driver.

(** ** What the properties speak about *)

Module Observations.
Import Scan Engine Driver.

(** The (source, sink) pairs stored in a table of sink sets. *)
Definition edge_pairs (table : gmap Z (gset Z)) : gset (Z * Z) :=
  list_to_set
    ('(source, sink_list) ← map_to_list table;
     (λ sink_node, (source, sink_node)) <$> elements sink_list).

(** A control or memory dependence recorded in the tables of the builder. *)
Definition control_edge (st : DDDG) (source sink : Z) : Prop :=
  (source, sink) ∈ edge_pairs (control_edge_table st).
Definition memory_edge (st : DDDG) (source sink : Z) : Prop :=
  (source, sink) ∈ edge_pairs (memory_edge_table st).

(** The dependence counters agree with the edge tables. *)
Definition counters_agree (st : DDDG) : Prop :=
  num_of_mem_dep st = Z.of_nat (size (edge_pairs (memory_edge_table st))) ∧
  num_of_ctrl_dep st = Z.of_nat (size (edge_pairs (control_edge_table st))).

(** The states of the loop of [build_initial_dddg]: [s] is reached when some
    sequence of lines leads the loop from its start to [s]. *)
Definition reached (env : Env) (s : Locals) : Prop :=
  ∃ trace, rounds env trace start = Ok s.

End Observations.

(** ** The vocabulary of the properties *)

Module Reasoning.
Import Scan Engine Driver Observations.

(** [wp r Q]: if [r] is a state, [Q] holds of it. *)
Definition wp {A} (r : result A) (Q : A → Prop) : Prop :=
  match r with
  | Ok a => Q a
  | Fatal _ => True
  end.

(** [wpt r Q]: [r] is a state and [Q] holds of it. *)
Definition wpt {A} (r : result A) (Q : A → Prop) : Prop :=
  ∃ a, r = Ok a ∧ Q a.

Definition erase_ctrl (st : DDDG) : DDDG :=
  st <| control_edge_table := ∅ |> <| num_of_ctrl_dep := 0 |>.

Definition erase_mem (st : DDDG) : DDDG :=
  st <| memory_edge_table := ∅ |> <| num_of_mem_dep := 0 |>.

Definition erase_alw (st : DDDG) : DDDG :=
  st <| address_last_written := ∅ |>.

Definition erase_nodes (st : DDDG) : DDDG :=
  st <| nodes := [] |>.

Definition erase_calls (st : DDDG) : DDDG :=
  st <| invocations := ∅ |> <| active_method := [] |>
     <| curr_dynamic_function := (None, 0) |>.

Definition erase_boundary (st : DDDG) : DDDG :=
  erase_ctrl st <| nodes_since_last_ret := [] |> <| last_ret := None |>.

Definition erase_dma (st : DDDG) : DDDG :=
  erase_ctrl st <| last_dma_fence := 0 |> <| last_dma_nodes := [] |>.

Definition erase_reg (st : DDDG) : DDDG :=
  st <| unique_reg_in_caller_func := None |> <| register_edge_table := [] |>
     <| num_of_reg_dep := 0 |> <| last_call_source := 0 |>
     <| register_last_written := ∅ |>.

Definition erase_store (st : DDDG) : DDDG := erase_alw (erase_mem st).

Definition erase_operand (st : DDDG) : DDDG :=
  erase_nodes (erase_store st)
    <| parameter_value_per_inst := [] |> <| parameter_size_per_inst := [] |>
    <| parameter_label_per_inst := [] |>.

Class Frames (E h : DDDG → DDDG) : Prop :=
  frames : ∀ st, E (h st) = E st.

(** The ids and microops of the nodes, in the order of the nodes. *)
Definition node_tags (st : DDDG) : list (Z * Microop) :=
  (λ n, (node_id n, microop n)) <$> nodes st.

(** Updates of a node that keep its id and its microop. *)
Class KeepsTag (f : ExecNode → ExecNode) : Prop :=
  keeps_tag : ∀ n, (node_id (f n), microop (f n)) = (node_id n, microop n).

(** What [parse_instruction_line] writes. *)
Definition erase_instruction (st : DDDG) : DDDG :=
  erase_nodes (erase_calls (erase_dma (erase_boundary st)))
    <| current_node_id := 0 |> <| num_of_instructions := 0 |>
    <| prev_microop := None |> <| curr_microop := None |>
    <| curr_instid := EmptyString |> <| current_loop_depth := 0 |>
    <| curr_node := None |> <| prev_bblock := EmptyString |>
    <| curr_bblock := EmptyString |> <| last_parameter := false |>
    <| parameter_value_per_inst := [] |> <| parameter_size_per_inst := [] |>
    <| parameter_label_per_inst := [] |>.

(** What [parse_parameter] writes. *)
Definition erase_parameter (st : DDDG) : DDDG :=
  erase_operand (erase_reg (erase_calls st))
    <| num_of_parameters := 0 |> <| callee_function := None |>
    <| callee_dynamic_function := (None, 0) |> <| last_parameter := false |>.

(** What [parse_result] writes. *)
Definition erase_result (st : DDDG) : DDDG :=
  erase_nodes (erase_store st) <| register_last_written := ∅ |>.

(** What [parse_forward] writes. *)
Definition erase_forward (st : DDDG) : DDDG :=
  st <| call_arg_map := [] |> <| unique_reg_in_caller_func := None |>
     <| register_last_written := ∅ |>.

Definition next_state (next : Next) : Locals :=
  match next with
  | Continue s => s
  | Break s => s
  end.

(** The sources of the control edges that the call and return fence of an
    instruction [m] with node id [id] adds, and those that its DMA ordering
    adds. *)
Definition boundary_source (m : Microop) (id : Z) (st : DDDG) (s : Z) : Prop :=
  is_ret_op m || is_call_op m = true ∧
  (s ∈ nodes_since_last_ret st ∨ (last_ret st = Some s ∧ s ≠ id)).

Definition dma_source (m : Microop) (st : DDDG) (s : Z) : Prop :=
  (m = LLVM_IR_DMAFence ∧ s ∈ last_dma_nodes st) ∨
  ((m = LLVM_IR_DMALoad ∨ m = LLVM_IR_DMAStore) ∧
   last_dma_fence st ≠ -1 ∧ s = last_dma_fence st).

(** The walk through [parse_instruction_line] in three stages: up to the
    fence, between the fence and the DMA ordering, and from there on. *)
Definition instruction_pre (m : Microop) (id : Z) (st st' : DDDG) : Prop :=
  nodes_since_last_ret st' = nodes_since_last_ret st ∧
  last_ret st' = last_ret st ∧
  control_edge_table st' = control_edge_table st ∧
  last_dma_fence st' = last_dma_fence st ∧
  last_dma_nodes st' = last_dma_nodes st ∧
  current_node_id st' = id ∧
  curr_microop st' = Some m.


(** The fields a result line reads for its memory dependences. *)
Definition same_memory_view (st st' : DDDG) : Prop :=
  address_last_written st' = address_last_written st ∧
  memory_edge_table st' = memory_edge_table st ∧
  current_node_id st' = current_node_id st ∧
  curr_microop st' = curr_microop st ∧
  parameter_value_per_inst st' = parameter_value_per_inst st.


(** Once the first function has returned, the label map scan is over. *)
Definition returned_after_scan (s : Locals) : Prop :=
  first_function_returned s = true → labelmap_parsed_or_not_present s = true.

Section WithEnv.
Context (env : Env).

Definition boundary_done (m : Microop) (id : Z) (st st' : DDDG) : Prop :=
  nodes_since_last_ret st' =
    (if is_ret_op m || is_call_op m then []
     else if is_dma_op env m then nodes_since_last_ret st
     else nodes_since_last_ret st ++ [id]) ∧
  last_ret st' =
    (if is_ret_op m || is_call_op m then Some id else last_ret st).

Definition instruction_mid (m : Microop) (id : Z) (st st' : DDDG) : Prop :=
  boundary_done m id st st' ∧
  (∀ s t, control_edge st' s t ↔
          control_edge st s t ∨ (t = id ∧ boundary_source m id st s)) ∧
  last_dma_fence st' = last_dma_fence st ∧
  last_dma_nodes st' = last_dma_nodes st ∧
  current_node_id st' = id ∧
  curr_microop st' = Some m.

Definition instruction_post (m : Microop) (id : Z) (st st' : DDDG) : Prop :=
  boundary_done m id st st' ∧
  (∀ s t, control_edge st' s t ↔
          control_edge st s t ∨
          (t = id ∧ (boundary_source m id st s ∨ dma_source m st s))) ∧
  last_dma_fence st' =
    (if bool_decide (m = LLVM_IR_DMAFence) then id else last_dma_fence st) ∧
  last_dma_nodes st' =
    (if bool_decide (m = LLVM_IR_DMAFence) then []
     else if bool_decide (m = LLVM_IR_DMALoad) || bool_decide (m = LLVM_IR_DMAStore)
          then last_dma_nodes st ++ [id]
          else last_dma_nodes st) ∧
  current_node_id st' = id ∧
  curr_microop st' = Some m.


End WithEnv.

End Reasoning.

(** ** What holds in every state of the builder *)

Module Invariants.
Import Scan Engine Driver Observations Reasoning.

(** The node with id [id] of the program store carries the microop [m]. *)
Definition op_at (st : DDDG) (id : Z) (m : Microop) : Prop :=
  ∃ n, node_at id (nodes st) = Some n ∧ microop n = m.

(** A DMA load or a DMA store: the operations the DMA ordering of
    [parse_instruction_line] orders against the fences. *)
Definition dma_transfer_at (st : DDDG) (id : Z) : Prop :=
  op_at st id LLVM_IR_DMALoad ∨ op_at st id LLVM_IR_DMAStore.

(** No DMA fence strictly between the nodes [a] and [b]. *)
Definition no_fence_between (st : DDDG) (a b : Z) : Prop :=
  ∀ k, a < k < b → ¬ op_at st k LLVM_IR_DMAFence.

(** The node tags are [T]. *)
Definition same_tags (T : list (Z * Microop)) (st : DDDG) : Prop :=
  node_tags st = T.

(** The fields that only an instruction line writes keep their value from
    [st] to [st']. *)
Definition stable (st st' : DDDG) : Prop :=
  node_tags st' = node_tags st ∧
  current_node_id st' = current_node_id st ∧
  curr_node st' = curr_node st ∧
  curr_microop st' = curr_microop st ∧
  control_edge_table st' = control_edge_table st ∧
  last_dma_fence st' = last_dma_fence st ∧
  last_dma_nodes st' = last_dma_nodes st ∧
  nodes_since_last_ret st' = nodes_since_last_ret st ∧
  last_ret st' = last_ret st.

(** Every node sits at its id, the current node is the last one, and
    [curr_node] and [curr_microop] speak about it. *)
Definition shape_of (T : list (Z * Microop)) (current : Z)
    (node : option Z) (op : option Microop) : Prop :=
  current = Z.of_nat (length T) - 1 ∧
  (∀ i p, T !! i = Some p → p.1 = Z.of_nat i) ∧
  (∀ p, last T = Some p → node = Some current ∧ op = Some p.2).

Definition shape (st : DDDG) : Prop :=
  shape_of (node_tags st) (current_node_id st) (curr_node st) (curr_microop st).

(** The DMA ordering over the microops [T] of the nodes so far: [pending]
    holds the DMA transfers behind the last fence, [fence] is the last fence,
    and [E] has an edge between a fence and every transfer next to it. *)
Definition fence_at (T : list Microop) (i : nat) : Prop :=
  T !! i = Some LLVM_IR_DMAFence.

Definition transfer_at (T : list Microop) (i : nat) : Prop :=
  T !! i = Some LLVM_IR_DMALoad ∨ T !! i = Some LLVM_IR_DMAStore.

Definition fence_free (T : list Microop) (i j : nat) : Prop :=
  ∀ k, (i < k < j)%nat → ¬ fence_at T k.

Definition dma_tracked (T : list Microop) (fence : Z) (pending : list Z)
    (E : Z → Z → Prop) : Prop :=
  (∀ d, d ∈ pending ↔
        ∃ i, d = Z.of_nat i ∧ transfer_at T i ∧ fence_free T i (length T)) ∧
  (∀ i, fence_at T i → fence_free T i (length T) → fence = Z.of_nat i) ∧
  (∀ i j, transfer_at T i → fence_at T j → (i < j)%nat → fence_free T i j →
          E (Z.of_nat i) (Z.of_nat j)) ∧
  (∀ i j, fence_at T i → transfer_at T j → (i < j)%nat → fence_free T i j →
          E (Z.of_nat i) (Z.of_nat j)).

Definition dma_ordered (st : DDDG) : Prop :=
  dma_tracked (snd <$> node_tags st) (last_dma_fence st) (last_dma_nodes st)
    (control_edge st).

(** The last writers are nodes seen so far; the current node is a last
    writer only as a DMA load, or as a store for the address it holds as its
    first operand. *)
Definition last_writer_bound (current : Z) (op : option Microop)
    (operands : list Z) (alw : gmap Z Z) : Prop :=
  ∀ a w, alw !! a = Some w →
    w ≤ current ∧
    (w = current →
     op = Some LLVM_IR_DMALoad ∨
     (op = Some LLVM_IR_Store ∧ head operands = Some a)).

Definition memory_bound (st : DDDG) : Prop :=
  shape st ∧
  last_writer_bound (current_node_id st) (curr_microop st)
    (parameter_value_per_inst st) (address_last_written st) ∧
  (∀ s t, memory_edge st s t → s < t).

(** The registers were written by nodes seen so far, and a register edge
    never points backwards. *)
Definition register_bound (st : DDDG) : Prop :=
  -1 ≤ current_node_id st ∧
  (∀ k w, register_last_written st !! k = Some w → w ≤ current_node_id st) ∧
  last_call_source st ≤ current_node_id st ∧
  (∀ s e, (s, e) ∈ register_edge_table st → s ≤ sink_node e).

(** The nodes the control bookkeeping remembers were seen so far, and a
    control edge points forwards. *)
Definition control_bound (st : DDDG) : Prop :=
  (∀ x, x ∈ nodes_since_last_ret st → x ≤ current_node_id st) ∧
  (∀ x, last_ret st = Some x → x ≤ current_node_id st) ∧
  (∀ x, x ∈ last_dma_nodes st → x ≤ current_node_id st) ∧
  last_dma_fence st ≤ current_node_id st ∧
  (∀ s t, control_edge st s t → s < t).

Definition bounded (st : DDDG) : Prop :=
  memory_bound st ∧ register_bound st ∧ control_bound st.

(** An edge follows the order of the trace: a memory or control edge goes
    from a node to a later node, a register edge to a node that is not
    earlier. *)
Definition follows_trace_order (e : Edge) : Prop :=
  let '(source, sink, label) := e in
  match label with
  | RegisterEdge _ => source ≤ sink
  | MEMORY_EDGE | CONTROL_EDGE => source < sink
  end.

End Invariants.

(** ** Example traces *)

Module Examples.
Import Scan Engine Driver.

(** The builder after the lines of [trace]. *)
Definition after (env : Env) (trace : list string) : DDDG :=
  match rounds env trace start with
  | Ok s => dddg s
  | Fatal _ => init
  end.

(** An alloca, a store of 5 to its address, a load from it, and the return
    of the function; the last line comes after the return. *)
Definition store_load_trace : list string :=
  [ ln "0,1,f,bb:0,i0,26,0"; ln "1,32,1,0,4,"; ln "r,64,4096,1,a,"; ln "";
    ln "0,2,f,bb:0,i1,28,1"; ln "2,64,4096,1,a,"; ln "1,32,5,0,5,"; ln "";
    ln "0,3,f,bb:0,i2,27,2"; ln "1,64,4096,1,a,"; ln "r,32,5,1,b,"; ln "";
    ln "0,4,f,bb:0,i3,1,3"; ln "";
    ln "0,5,g,bb:0,i4,8,4" ].

(** A DMA load with the five operands of the second interface version, up to
    its result line, which is [dma_load_result]: 16 bytes to address 4096. *)
Definition dma_load_trace : list string :=
  [ ln "0,1,f,bb:0,i0,99,0"; ln "5,64,0,0,dmaLoad,"; ln "4,64,4096,1,dst,";
    ln "3,64,0,0,0,"; ln "2,64,0,0,0,"; ln "1,64,16,0,16," ].
Definition dma_load_result : string := ln "32,0,1,res,".

(** A load of 4 bytes from address 4100 up to its result line, which is
    [load_result]. *)
Definition load_trace : list string :=
  [ ln "0,2,f,bb:0,i1,27,1"; ln "1,64,4100,1,p," ].
Definition load_result : string := ln "32,7,1,v,".

(** A DMA load with three operands only, and its result line. *)
Definition dma_three_operands_trace : list string :=
  [ ln "0,1,f,bb:0,i0,99,0"; ln "3,64,4096,1,dst,"; ln "2,64,0,0,0,";
    ln "1,64,16,0,16,"; ln "r,32,0,1,res," ].


(** A store whose value operand is the register that holds its address. *)
Definition store_pointer_trace : list string :=
  [ ln "0,2,f,bb:0,i1,28,0"; ln "2,64,4096,1,p,"; ln "1,64,4096,1,p," ].

(** The return of the first function, directly followed by a call. *)
Definition ret_call_trace : list string :=
  [ ln "0,1,f,bb:0,i0,1,0"; ln "0,2,f,bb:0,i1,49,1" ].

(** Two DMA fences and a DMA load after them. *)
Definition two_fences_trace : list string :=
  [ ln "0,1,f,bb:0,i0,97,0"; ln "0,2,f,bb:0,i1,97,1"; ln "0,3,f,bb:0,i2,99,2" ].

(** Two DMA loads, a fence, a DMA store. *)
Definition dma_fence_trace : list string :=
  [ ln "0,1,f,bb:0,i0,99,0"; ln "0,2,f,bb:0,i1,99,1";
    ln "0,3,f,bb:0,i2,97,2"; ln "0,4,f,bb:0,i3,98,3" ].

End Examples.
(** * Part II: properties *)

Lemma bind_Ok {A B} (r : result A) (k : A → result B) b :
  r ≫= k = Ok b → ∃ a, r = Ok a ∧ k a = Ok b.
Proof. destruct r as [a|m]; simpl; [eauto | discriminate]. Qed.

(** ** Properties of the codec *)

Module CodecFacts.
Import Codec.

Lemma digits_cons b data :
  digits (b :: data) =
  String (hex_digit (Byte.to_N b / 16))
    (String (hex_digit (Byte.to_N b mod 16)) (digits data)).
Proof. reflexivity. Qed.

Lemma bytesToHexStr_from_no_separator data : ∀ i size sep_count sep_threshold,
  sep_count + Z.of_nat (length data) < sep_threshold →
  bytesToHexStr_from data i size sep_count sep_threshold = digits data.
Proof.
  induction data as [|b data IH]; intros i size sc thr Hlt; [done|].
  cbn [bytesToHexStr_from digits foldr length] in *.
  replace (sc + 1 =? thr) with false by (symmetry; apply Z.eqb_neq; lia).
  cbn [andb]. f_equal. apply IH. lia.
Qed.

Lemma bytesToHexStr_unseparated data :
  bytesToHexStr data false = "0x" +:+ digits data.
Proof.
  unfold bytesToHexStr. f_equal.
  apply bytesToHexStr_from_no_separator. lia.
Qed.

Lemma digits_length data : String.length (digits data) = (2 * length data)%nat.
Proof.
  induction data as [|b data IH]; [done|].
  rewrite digits_cons. cbn [String.length length]. rewrite IH. lia.
Qed.

Lemma decode_sprintf_02x b :
  to_uint8 (Z.shiftl (nibbleVal (hex_digit (Byte.to_N b / 16))) 4
            + nibbleVal (hex_digit (Byte.to_N b mod 16))) = b.
Proof. destruct b; vm_compute; reflexivity. Qed.

Lemma decode_digits data :
  decode_pairs (list_ascii_of_string (digits data)) = data.
Proof.
  induction data as [|b data IH]; [done|].
  rewrite digits_cons. cbn [list_ascii_of_string decode_pairs].
  by rewrite decode_sprintf_02x, IH.
Qed.

Lemma is_nibble_cases c :
  is_nibble c = true → c ∈ kHexTable.
Proof. unfold is_nibble. apply bool_decide_eq_true_1. Qed.

Lemma sprintf_decode_pair hi lo :
  is_nibble hi = true → is_nibble lo = true →
  sprintf_02x (to_uint8 (Z.shiftl (nibbleVal hi) 4 + nibbleVal lo)) =
  String hi (String lo EmptyString).
Proof.
  intros Hhi%is_nibble_cases Hlo%is_nibble_cases.
  unfold kHexTable in *.
  repeat (apply elem_of_cons in Hhi as [->|Hhi]);
    try (by apply elem_of_nil in Hhi);
    repeat (apply elem_of_cons in Hlo as [->|Hlo]);
    try (by apply elem_of_nil in Hlo);
    vm_compute; reflexivity.
Qed.

Lemma digits_decode_pairs n : ∀ cs,
  (length cs ≤ n)%nat → Nat.even (length cs) = true →
  forallb is_nibble cs = true →
  digits (decode_pairs cs) = string_of_list_ascii cs.
Proof.
  induction n as [|n IH]; intros cs Hlen Hev Hnib.
  - destruct cs; [done | simpl in Hlen; lia].
  - destruct cs as [|hi [|lo rest]]; [done | discriminate |].
    cbn [forallb] in Hnib.
    apply andb_prop in Hnib as [Hhi Hnib]. apply andb_prop in Hnib as [Hlo Hnib].
    cbn [decode_pairs].
    change (digits (?b :: ?l)) with (sprintf_02x b +:+ digits l).
    rewrite sprintf_decode_pair by done.
    change (string_of_list_ascii (hi :: lo :: rest))
      with (String hi (String lo (string_of_list_ascii rest))).
    change (String hi (String lo "") +:+ ?x) with (String hi (String lo x)).
    do 2 f_equal.
    apply IH; [simpl in Hlen; lia | exact Hev | done].
Qed.

Lemma starts_with_0x_inv str :
  starts_with_0x str = true → ∃ rest, str = String "0" (String "x" rest).
Proof.
  destruct str as [|a [|b rest]]; [discriminate | |].
  - destruct a as [[] [] [] [] [] [] [] []]; discriminate.
  - destruct a as [[] [] [] [] [] [] [] []]; try discriminate.
    destruct b as [[] [] [] [] [] [] [] []]; try discriminate. eauto.
Qed.

Lemma hex_body_spec str :
  (if starts_with_0x str then "0x" else "") +:+ string_of_list_ascii (hex_body str)
  = str.
Proof.
  unfold hex_body. destruct (starts_with_0x str) eqn:E.
  - apply starts_with_0x_inv in E as [rest ->].
    change (drop 2 (list_ascii_of_string (String "0" (String "x" rest))))
      with (list_ascii_of_string rest).
    rewrite string_of_list_ascii_of_string. reflexivity.
  - change (drop 0 ?l) with l.
    rewrite string_of_list_ascii_of_string. reflexivity.
Qed.

Lemma hex_body_length str :
  length (hex_body str) =
  (String.length str - if starts_with_0x str then 2 else 0)%nat.
Proof.
  unfold hex_body. rewrite length_drop.
  assert (length (list_ascii_of_string str) = String.length str) as ->; [|done].
  induction str; simpl; congruence.
Qed.

(** The buffer allocated by [hexStrToBytes] has [byte_buf_len] bytes:
    [len / 2], one less when the prefix is skipped. *)
Lemma decode_pairs_length cs : length (decode_pairs cs) = (length cs / 2)%nat.
Proof.
  assert (∀ n cs, (length cs ≤ n)%nat →
            length (decode_pairs cs) = (length cs / 2)%nat) as H.
  { clear. induction n as [|n IH]; intros cs Hlen.
    - destruct cs; [done | simpl in Hlen; lia].
    - destruct cs as [|hi [|lo rest]]; [done | done |].
      cbn [decode_pairs length] in *. rewrite IH by lia.
      change (S (S (length rest))) with (1 * 2 + length rest)%nat.
      rewrite Nat.add_comm, Nat.div_add by lia. lia. }
  eauto.
Qed.

Lemma hexStrToBytes_length str bytes :
  hexStrToBytes str = Ok bytes →
  length bytes =
  (String.length str / 2 - if starts_with_0x str then 1 else 0)%nat.
Proof.
  unfold hexStrToBytes. destruct (Nat.even _) eqn:Hev; [|discriminate].
  cbn [negb]. intros [= <-]. fold (hex_body str).
  rewrite decode_pairs_length, hex_body_length.
  destruct (starts_with_0x str) eqn:E.
  - apply starts_with_0x_inv in E as [rest ->]. cbn [String.length].
    replace (S (S (String.length rest)) - 2)%nat with (String.length rest) by lia.
    change (S (S (String.length rest))) with (1 * 2 + String.length rest)%nat.
    rewrite (Nat.add_comm (1 * 2)), Nat.div_add by lia. lia.
  - by rewrite !Nat.sub_0_r.
Qed.

(** An even-length string is always decoded: no character makes the decoder
    stop. *)
Lemma hexStrToBytes_even_Ok str :
  Nat.even (String.length str) = true →
  hexStrToBytes str = Ok (decode_pairs (hex_body str)).
Proof. intros Hev. unfold hexStrToBytes. by rewrite Hev. Qed.

Lemma hex_body_prefixed s : hex_body ("0x" +:+ s) = list_ascii_of_string s.
Proof. reflexivity. Qed.

Lemma length_prefixed s : String.length ("0x" +:+ s) = S (S (String.length s)).
Proof. reflexivity. Qed.

(** C1 (as the code behaves): a string with a character outside [kHexTable]
    is not fatal.  [nibbleVal] maps the character to 0 and [hexStrToBytes]
    returns a buffer: for the two-character string "0g" it is the single
    byte 0x00. *)
Theorem hexStrToBytes_invalid_nibble_returns :
  is_nibble "g" = false ∧ hexStrToBytes "0g" = Ok [x00].
Proof. split; reflexivity. Qed.

(** C9: the hex codec round trip.  Decoding the unseparated text of a byte
    sequence gives the sequence back, and re-encoding the bytes of a valid
    even-length lowercase hex string gives its digits behind one [0x]. *)
Theorem hex_codec_round_trip :
  (∀ data : list byte, hexStrToBytes (bytesToHexStr data false) = Ok data) ∧
  (∀ str : string, valid_hex str = true →
     ∃ bytes, hexStrToBytes str = Ok bytes ∧
              bytesToHexStr bytes false = normalize str).
Proof.
  split.
  - intros data. rewrite bytesToHexStr_unseparated.
    rewrite hexStrToBytes_even_Ok.
    + by rewrite hex_body_prefixed, decode_digits.
    + rewrite length_prefixed, digits_length. cbn [Nat.even].
      induction (length data) as [|n IH]; [done|].
      by replace (2 * S n)%nat with (S (S (2 * n))) by lia.
  - intros str [Hev Hnib]%andb_prop. exists (decode_pairs (hex_body str)).
    split; [by apply hexStrToBytes_even_Ok|].
    rewrite bytesToHexStr_unseparated.
    rewrite (digits_decode_pairs (length (hex_body str))); [|lia| |done].
    + unfold normalize. pose proof (hex_body_spec str) as Hs.
      destruct (starts_with_0x str); [done|].
      change ("" +:+ ?x) with x in Hs. by rewrite Hs.
    + rewrite hex_body_length. destruct (starts_with_0x str) eqn:E.
      * apply starts_with_0x_inv in E as [rest ->].
        cbn [String.length] in *.
        by replace (S (S (String.length rest)) - 2)%nat
          with (String.length rest) by lia.
      * by rewrite Nat.sub_0_r.
Qed.

Lemma hex_codec_round_trip_witness :
  valid_hex "0x1fa0" = true ∧
  ∃ bytes, hexStrToBytes "0x1fa0" = Ok bytes ∧
           bytesToHexStr bytes false = normalize "0x1fa0".
Proof.
  split; [reflexivity|].
  apply (proj2 hex_codec_round_trip "0x1fa0"). reflexivity.
Defined.

End CodecFacts.

(** ** Reasoning about the builder *)

Module EngineFacts.
Import Scan Engine Reasoning.

(** *** Results *)

Lemma wp_bind {A B} (r : result A) (k : A → result B) Q :
  wp r (λ a, wp (k a) Q) → wp (r ≫= k) Q.
Proof. by destruct r. Qed.

Lemma wp_elim {A} (r : result A) Q a : wp r Q → r = Ok a → Q a.
Proof. by intros H ->. Qed.

Lemma wp_intro {A} (r : result A) (Q : A → Prop) :
  (∀ a, r = Ok a → Q a) → wp r Q.
Proof. destruct r; simpl; eauto. Qed.

Lemma wp_mono {A} (r : result A) (Q Q' : A → Prop) :
  wp r Q → (∀ a, Q a → Q' a) → wp r Q'.
Proof. destruct r; simpl; eauto. Qed.

(** *** Footprints

    A helper of the builder writes a few fields and leaves the others alone.
    [Frames E h] says so for the fields that the eraser [E] keeps. *)

(** A function of the kept fields does not see the helper. *)
Lemma frame_proj {A} (p : DDDG → A) (E h : DDDG → DDDG) `{!Frames E h} st :
  (∀ s, p s = p (E s)) → p (h st) = p st.
Proof. intros Hp. by rewrite (Hp (h st)), frames, <- Hp. Qed.

(** Projections of updated records. *)
Ltac psimpl :=
  cbn [set RecordSettersUsingExistingGetters.const nodes call_arg_map labelmap_lines invocations num_of_reg_dep
       num_of_mem_dep num_of_ctrl_dep num_of_instructions current_node_id
       curr_node last_parameter num_of_parameters last_dma_fence prev_bblock
       curr_bblock current_loop_depth callee_function last_ret prev_microop
       curr_microop curr_instid active_method curr_dynamic_function
       callee_dynamic_function unique_reg_in_caller_func last_call_source
       register_last_written address_last_written register_edge_table
       memory_edge_table control_edge_table nodes_since_last_ret last_dma_nodes
       parameter_value_per_inst parameter_size_per_inst
       parameter_label_per_inst].

Ltac psimpl_in H :=
  cbn [set RecordSettersUsingExistingGetters.const nodes call_arg_map labelmap_lines invocations num_of_reg_dep
       num_of_mem_dep num_of_ctrl_dep num_of_instructions current_node_id
       curr_node last_parameter num_of_parameters last_dma_fence prev_bblock
       curr_bblock current_loop_depth callee_function last_ret prev_microop
       curr_microop curr_instid active_method curr_dynamic_function
       callee_dynamic_function unique_reg_in_caller_func last_call_source
       register_last_written address_last_written register_edge_table
       memory_edge_table control_edge_table nodes_since_last_ret last_dma_nodes
       parameter_value_per_inst parameter_size_per_inst
       parameter_label_per_inst] in H.

Ltac frame :=
  repeat first
    [ progress psimpl
    | match goal with
      | |- context [?p (@set DDDG ?T ?proj ?S ?f ?st)] =>
          change (p (@set DDDG T proj S f st)) with (p st)
      | |- context [?p (?h ?st)] =>
          lazymatch type of st with DDDG => idtac end;
          rewrite (frame_proj p _ h st) by reflexivity
      end ].

Ltac frame_in H :=
  repeat first
    [ progress psimpl_in H
    | match type of H with
      | context [?p (@set DDDG ?T ?proj ?S ?f ?st)] =>
          change (p (@set DDDG T proj S f st)) with (p st) in H
      | context [?p (?h ?st)] =>
          lazymatch type of st with DDDG => idtac end;
          rewrite (frame_proj p _ h st) in H by reflexivity
      end ].

#[global] Instance insert_control_dependence_frames source dest :
  Frames erase_ctrl (insert_control_dependence source dest).
Proof.
  intros st. unfold insert_control_dependence.
  destruct (insert_sink _ _ _) as [table []]; reflexivity.
Qed.

Lemma foldl_frame_proj {A B} (p : DDDG → B) E (h : DDDG → A → DDDG) l st :
  (∀ a, Frames E (λ st, h st a)) → (∀ s, p s = p (E s)) →
  p (foldl h st l) = p st.
Proof.
  intros Hh Hp. revert st. induction l as [|a l IH]; intros st; [done|].
  simpl. rewrite IH. apply (frame_proj p E (λ st, h st a)), Hp.
Qed.

#[global] Instance post_write_at_frames addr sink :
  Frames erase_mem (post_write_at addr sink).
Proof.
  intros st. unfold post_write_at. destruct (_ !! _); [|done].
  destruct (insert_sink _ _ _) as [table []]; reflexivity.
Qed.

#[global] Instance post_write_from_frames rounds addr sink :
  Frames erase_mem (post_write_from rounds addr sink).
Proof.
  revert addr. induction rounds as [|n IH]; intros addr st; [done|].
  simpl. rewrite IH. apply post_write_at_frames.
Qed.

#[global] Instance handle_post_write_dependency_frames start size sink :
  Frames erase_mem (handle_post_write_dependency start size sink).
Proof. intros st. apply post_write_from_frames. Qed.

#[global] Instance mark_written_from_frames rounds addr :
  Frames erase_alw (mark_written_from rounds addr).
Proof.
  revert addr. induction rounds as [|n IH]; intros addr st; [done|].
  simpl. by rewrite IH.
Qed.

#[global] Instance update_node_frames id f : Frames erase_nodes (update_node id f).
Proof. intros st. unfold update_node. by destruct (0 <=? id). Qed.

#[global] Hint Extern 1 (KeepsTag _) => (intros ?; reflexivity) : typeclass_instances.

Lemma update_node_tags id f `{!KeepsTag f} st :
  node_tags (update_node id f st) = node_tags st.
Proof.
  unfold update_node, node_tags. destruct (0 <=? id); [|done].
  change (nodes (set nodes ?g st)) with (g (nodes st)).
  apply list_eq. intros i. rewrite !list_lookup_fmap.
  destruct (decide (i = Z.to_nat id)) as [->|Hne].
  - rewrite list_lookup_alter_eq. destruct (nodes st !! _); [|done].
    cbn. by rewrite keeps_tag.
  - by rewrite list_lookup_alter_ne.
Qed.

#[global] Instance insert_Function_frames name :
  Frames erase_calls (insert_Function name).
Proof. intros st. unfold insert_Function. by destruct (_ !! _). Qed.

#[global] Instance increment_invocations_frames name :
  Frames erase_calls (increment_invocations name).
Proof. done. Qed.

#[global] Instance push_method_frames name : Frames erase_calls (push_method name).
Proof. done. Qed.

Section WithEnv.
Context (env : Env).

#[global] Instance function_boundary_frames m :
  Frames erase_boundary (function_boundary env m).
Proof.
  intros st. unfold function_boundary.
  destruct (is_ret_op m || is_call_op m).
  - set (st1 := foldl _ _ _).
    assert (erase_boundary st1 = erase_boundary st) as <-.
    { subst st1. apply foldl_frame_proj with (E := erase_ctrl); [|done].
      intros a. apply _. }
    clearbody st1.
    change (last_ret (st1 <| nodes_since_last_ret := [] |>)) with (last_ret st1).
    destruct (last_ret st1) as [last|]; [|done].
    destruct (bool_decide _); [|done]. by frame.
  - by destruct (negb _).
Qed.

#[global] Instance dma_ordering_frames m : Frames erase_dma (dma_ordering m).
Proof.
  intros st. unfold dma_ordering.
  destruct (bool_decide (m = LLVM_IR_DMAFence)).
  - frame. rewrite foldl_frame_proj with (E := erase_ctrl); [done| |done].
    intros a st'. apply frames.
  - destruct (_ || _); [|done].
    destruct (bool_decide _); by frame.
Qed.

#[global] Instance track_invocation_frames curr_function m :
  Frames erase_calls (λ st, (track_invocation curr_function m st).1).
Proof.
  intros st. unfold track_invocation.
  destruct (active_method st) as [|top ?].
  - cbn [fst]. by frame.
  - repeat case_match; simplify_eq; cbn [fst]; by frame.
Qed.

#[global] Instance read_register_frames label param_tag :
  Frames erase_reg (read_register label param_tag).
Proof.
  intros st. unfold read_register.
  repeat case_match; by frame.
Qed.

Lemma store_address_frames st st' :
  store_address st = Ok st' → erase_store st' = erase_store st.
Proof.
  unfold store_address. intros H.
  repeat case_match; simplify_eq; by frame.
Qed.

Lemma record_operand_frames f param_tag st st' :
  record_operand env f param_tag st = Ok st' →
  erase_operand st' = erase_operand st.
Proof.
  unfold record_operand. intros H.
  set (st1 := set parameter_label_per_inst _ _) in *.
  assert (erase_operand st1 = erase_operand st) as <- by done.
  clearbody st1.
  destruct (_ && _); [by simplify_eq|].
  destruct (_ && _).
  { apply bind_Ok in H as (access & _ & [= <-]). by frame. }
  destruct (_ && _); [|by simplify_eq].
  apply store_address_frames in H. unfold erase_operand. by rewrite H.
Qed.

#[global] Instance dma_result_frames :
  Frames (λ st, erase_nodes (erase_store st)) (dma_result env).
Proof.
  intros st. unfold dma_result.
  set (st1 := update_node _ _ _).
  assert (erase_nodes (erase_store st1) = erase_nodes (erase_store st)) as <-.
  { subst st1.
    by rewrite (frame_proj (λ s, erase_nodes (erase_store s)) _
                 (update_node _ _)). }
  clearbody st1.
  destruct (bool_decide _); [destruct (negb _)|]; [|done|].
  - by rewrite (frame_proj (λ s, erase_nodes (erase_store s)) _
                 (mark_written_from _ _)).
  - by rewrite (frame_proj (λ s, erase_nodes (erase_store s)) _
                 (handle_post_write_dependency _ _ _)).
Qed.

End WithEnv.

End EngineFacts.

(** ** Walking through the handlers *)

Module Walk.
Import Scan Engine Reasoning EngineFacts.

(** The tactics below take a goal [wp body Q] apart along the shape of
    [body]: a [let] introduces a name for the intermediate state together
    with its defining equation, a bind splits the goal in two. *)

Lemma wp_let {A B} (x : A) (body : A → result B) Q :
  (∀ y, y = x → wp (body y) Q) → wp (let z := x in body z) Q.
Proof. intros H. by apply H. Qed.

Lemma wpt_let {A B} (x : A) (body : A → result B) Q :
  (∀ y, y = x → wpt (body y) Q) → wpt (let z := x in body z) Q.
Proof. intros H. by apply H. Qed.

Lemma wpt_bind {A B} (r : result A) (k : A → result B) Q a :
  r = Ok a → wpt (k a) Q → wpt (r ≫= k) Q.
Proof. by intros ->. Qed.

Lemma bind_Ok_l {A B} (a : A) (k : A → result B) : Ok a ≫= k = k a.
Proof. reflexivity. Qed.

Lemma wpt_Ok {A} (a : A) (Q : A → Prop) : Q a → wpt (Ok a) Q.
Proof. intros H. by exists a. Qed.

Lemma wpt_wp {A} (r : result A) (Q Q' : A → Prop) :
  wpt r Q → wp r Q' → wpt r (λ a, Q a ∧ Q' a).
Proof. intros (a & -> & H) H'. by exists a. Qed.

Ltac wp_let y Hy :=
  lazymatch goal with
  | |- wp (let x := ?X in @?body x) ?Q =>
      apply (wp_let X body Q); intros y Hy; cbv beta
  | |- wpt (let x := ?X in @?body x) ?Q =>
      apply (wpt_let X body Q); intros y Hy; cbv beta
  end.

Ltac wp_bind y Hy :=
  lazymatch goal with
  | |- wp (?r ≫= ?k) ?Q =>
      apply wp_bind, wp_intro; intros y Hy; cbv beta
  end.

Ltac wp_pair y c Hy :=
  lazymatch goal with
  | |- wp (let '(_, _) := ?X in _) ?Q =>
      destruct X as [y c] eqn:Hy
  | |- wpt (let '(_, _) := ?X in _) ?Q =>
      destruct X as [y c] eqn:Hy
  end.

(** [strip E]: in a goal [E t = _], remove from [t] the setters and helpers
    whose footprint [E] erases. *)
Ltac strip E :=
  repeat lazymatch goal with
    | |- E (@set DDDG ?T ?proj ?S ?f ?x) = _ =>
        change (E (@set DDDG T proj S f x)) with (E x)
    | |- E (fst (track_invocation ?c ?m ?x)) = _ =>
        rewrite (frame_proj E _ (λ st, (track_invocation c m st).1) x)
          by (intros; reflexivity)
    | |- E (?h ?x) = _ =>
        rewrite (frame_proj E _ h x) by (intros; reflexivity)
    end.

(** [frame_step E y Hy HE]: from [Hy : y = t] and [HE : E x = E st], with
    [x] the state under the setters and helpers of [t], to [HE : E y = E st]. *)
Ltac frame_step E y Hy HE :=
  let H := fresh in
  lazymatch type of HE with
  | _ = ?origin =>
      assert (E y = origin) as H
        by (rewrite Hy; cbv zeta; repeat case_match; strip E; exact HE)
  end;
  clear Hy HE; rename H into HE.

(** [frame_walk E HE]: walk a handler to its end, keeping [HE]. *)
Ltac frame_walk E HE :=
  repeat lazymatch goal with
    | |- wp (let x := ?X in _) _ =>
        let y := fresh "st" in
        let Hy := fresh "H" y in
        wp_let y Hy;
        lazymatch type of y with
        | DDDG => frame_step E y Hy HE
        | _ => idtac
        end
    | |- wp (let '(_, _) := _ in _) _ =>
        let y := fresh "st" in
        let c := fresh "count" in
        let Hy := fresh "H" y in
        wp_pair y c Hy; apply (f_equal fst) in Hy; cbn [fst] in Hy;
        symmetry in Hy; frame_step E y Hy HE
    | |- wp (_ ≫= _) _ =>
        let y := fresh "v" in
        let Hy := fresh "H" y in
        wp_bind y Hy
    | |- wp (if ?c then _ else _) _ => destruct c
    | |- wp (match ?o with _ => _ end) _ => destruct o
    | |- wp (Ok _) _ => cbn [wp]; strip E; exact HE
    | |- wp (Fatal _) _ => exact I
    end.

(** [pstrip]: in a goal [P t], remove from [t] one setter or helper that
    [P] does not look at. *)
Ltac pstrip :=
  lazymatch goal with
  | |- ?P (@set DDDG ?T ?proj ?S ?f ?x) => change (P x)
  | |- ?P (fst (track_invocation ?c ?m ?x)) =>
      rewrite (frame_proj P _ (λ st, (track_invocation c m st).1) x)
        by (intros; reflexivity)
  | |- ?P (?h ?x) =>
      rewrite (frame_proj P _ h x) by (intros; reflexivity)
  end.

(** [carry y Hy HP tac]: from [Hy : y = t] and [HP : P x] to [HP : P y];
    [tac] takes care of the helpers that [P] does look at. *)
Ltac carry y Hy HP tac :=
  let H := fresh in
  lazymatch type of HP with
  | ?P _ =>
      assert (P y) as H
        by (rewrite Hy; cbv zeta; repeat case_match;
            repeat first [exact HP | pstrip | tac])
  end;
  clear HP; rename H into HP.

(** [inv_walk HP tac]: walk a handler to its end with the invariant [HP]. *)
Ltac inv_walk HP tac :=
  repeat lazymatch goal with
    | |- wp (let x := ?X in _) _ =>
        let y := fresh "st" in
        let Hy := fresh "H" y in
        wp_let y Hy;
        lazymatch type of y with
        | DDDG => carry y Hy HP tac; clear Hy
        | _ => idtac
        end
    | |- wp (let '(_, _) := _ in _) _ =>
        let y := fresh "st" in
        let c := fresh "count" in
        let Hy := fresh "H" y in
        wp_pair y c Hy; apply (f_equal fst) in Hy; cbn [fst] in Hy;
        symmetry in Hy; carry y Hy HP tac; clear Hy
    | |- wp (_ ≫= _) _ =>
        let y := fresh "v" in
        let Hy := fresh "H" y in
        wp_bind y Hy
    | |- wp (if ?c then _ else _) _ => destruct c eqn:?
    | |- wp (match ?o with _ => _ end) _ => destruct o eqn:?
    | |- wp (Ok _) _ =>
        cbn [wp]; repeat first [exact HP | pstrip | tac]
    | |- wp (Fatal _) _ => exact I
    end.

(** From a frame of the last step to a frame of the walk so far. *)
Lemma frame_eq {A} (p : DDDG → A) (E : DDDG → DDDG) st st' :
  E st' = E st → (∀ s, p s = p (E s)) → p st' = p st.
Proof. intros HE Hp. by rewrite (Hp st'), HE, <- Hp. Qed.

End Walk.

(** ** The dependence counters (C10) *)

Module CounterFacts.
Import Scan Engine Reasoning Driver Observations EngineFacts Walk.

Lemma elem_of_edge_pairs source sink table :
  (source, sink) ∈ edge_pairs table ↔
  ∃ sink_list, table !! source = Some sink_list ∧ sink ∈ sink_list.
Proof.
  unfold edge_pairs. rewrite elem_of_list_to_set, list_elem_of_bind. split.
  - intros ([s sinks] & Hin & Hm). apply elem_of_map_to_list in Hm.
    apply list_elem_of_fmap in Hin as (t & [= -> ->] & Ht).
    apply elem_of_elements in Ht. eauto.
  - intros (sinks & Hm & Ht). exists (source, sinks). split.
    + apply list_elem_of_fmap. exists sink. by rewrite elem_of_elements.
    + by apply elem_of_map_to_list.
Qed.

(** [insert_sink] adds exactly the pair it is given, and reports an insertion
    exactly when the pair is new. *)
Lemma insert_sink_pairs source sink table :
  edge_pairs (insert_sink source sink table).1 =
    {[(source, sink)]} ∪ edge_pairs table ∧
  ((insert_sink source sink table).2 = true ↔
   (source, sink) ∉ edge_pairs table).
Proof.
  unfold insert_sink. cbn [fst snd]. split.
  - apply set_eq. intros [s t].
    rewrite elem_of_union, elem_of_singleton, !elem_of_edge_pairs.
    destruct (decide (s = source)) as [->|Hne].
    + rewrite lookup_insert_eq. destruct (table !! source) as [sinks|] eqn:E.
      * rewrite E. cbn. split.
        -- intros (? & [= <-] & [->%elem_of_singleton|?]%elem_of_union); eauto.
        -- intros [[= ->]|(? & [= <-] & ?)]; eexists; split; eauto; set_solver.
      * rewrite lookup_insert_eq. cbn. split.
        -- intros (? & [= <-] & [->%elem_of_singleton|?]%elem_of_union); eauto.
           set_solver.
        -- intros [[= ->]|(? & [=] & ?)]. eexists; split; eauto; set_solver.
    + rewrite lookup_insert_ne by done.
      destruct (table !! source); [|rewrite lookup_insert_ne by done];
        naive_solver.
  - rewrite bool_decide_eq_true, elem_of_edge_pairs.
    destruct (table !! source) as [sinks|] eqn:E.
    + rewrite E. cbn. naive_solver.
    + rewrite lookup_insert_eq. cbn. split; [naive_solver | set_solver].
Qed.

Lemma size_insert_pair (pair : Z * Z) (pairs : gset (Z * Z)) :
  Z.of_nat (size ({[pair]} ∪ pairs)) =
  if bool_decide (pair ∉ pairs) then Z.succ (Z.of_nat (size pairs))
  else Z.of_nat (size pairs).
Proof.
  case_bool_decide as Hin.
  - rewrite size_union by set_solver. rewrite size_singleton. lia.
  - f_equal. f_equal. set_solver.
Qed.

(** The counter moves with the table: one more when the pair is new, none
    otherwise. *)
Lemma insert_sink_count source sink table n :
  n = Z.of_nat (size (edge_pairs table)) →
  (if (insert_sink source sink table).2 then Z.succ n else n) =
  Z.of_nat (size (edge_pairs (insert_sink source sink table).1)).
Proof.
  intros ->. destruct (insert_sink_pairs source sink table) as [-> Hnew].
  rewrite size_insert_pair.
  destruct (insert_sink source sink table).2; case_bool_decide; naive_solver.
Qed.

Lemma insert_control_dependence_counters source dest st :
  counters_agree st → counters_agree (insert_control_dependence source dest st).
Proof.
  unfold counters_agree, insert_control_dependence. intros [Hm Hc].
  pose proof (insert_sink_count source dest _ _ Hc) as Hc'.
  destruct (insert_sink _ _ _) as [table []]; by split.
Qed.

Lemma foldl_insert_control_dependence_counters (dest : DDDG → Z) l st :
  counters_agree st →
  counters_agree
    (foldl (λ st node_id, insert_control_dependence node_id (dest st) st) st l).
Proof.
  revert st. induction l as [|a l IH]; intros st H; [done|].
  apply IH. by apply insert_control_dependence_counters.
Qed.

Lemma post_write_at_counters addr sink st :
  counters_agree st → counters_agree (post_write_at addr sink st).
Proof.
  unfold counters_agree, post_write_at. intros [Hm Hc].
  destruct (_ !! _) as [source|]; [|done].
  pose proof (insert_sink_count source sink _ _ Hm) as Hm'.
  destruct (insert_sink _ _ _) as [table []]; by split.
Qed.

Lemma handle_post_write_dependency_counters start size sink st :
  counters_agree st →
  counters_agree (handle_post_write_dependency start size sink st).
Proof.
  unfold handle_post_write_dependency.
  generalize (range_rounds start size). intros n. revert start st.
  induction n as [|n IH]; intros start st H; [done|].
  apply IH. by apply post_write_at_counters.
Qed.

Section WithEnv.
Context (env : Env).

Lemma function_boundary_counters m st :
  counters_agree st → counters_agree (function_boundary env m st).
Proof.
  intros H. unfold function_boundary.
  destruct (_ || _); [|by destruct (negb _)].
  pstrip.
  match goal with |- context [foldl ?f st ?l] =>
    assert (counters_agree (foldl f st l)) as H'
      by (by apply (foldl_insert_control_dependence_counters (λ _, _)));
    generalize dependent (foldl f st l) end.
  intros st1 H1.
  change (last_ret (st1 <| nodes_since_last_ret := [] |>)) with (last_ret st1).
  destruct (last_ret st1); [|by pstrip].
  destruct (bool_decide _); [|by pstrip].
  apply insert_control_dependence_counters. by pstrip.
Qed.

Lemma dma_ordering_counters m st :
  counters_agree st → counters_agree (dma_ordering m st).
Proof.
  intros H. unfold dma_ordering.
  destruct (bool_decide (m = LLVM_IR_DMAFence)).
  - pstrip. apply foldl_insert_control_dependence_counters. by pstrip.
  - destruct (_ || _); [|done]. pstrip.
    destruct (bool_decide _); [|done].
    by apply insert_control_dependence_counters.
Qed.

Lemma store_address_counters st :
  counters_agree st → wp (store_address st) counters_agree.
Proof.
  intros H. cbv beta delta [store_address].
  inv_walk H ltac:(apply handle_post_write_dependency_counters).
Qed.

Lemma record_operand_counters f param_tag st :
  counters_agree st → wp (record_operand env f param_tag st) counters_agree.
Proof.
  intros H. cbv beta delta [record_operand].
  inv_walk H fail. by apply store_address_counters.
Qed.

Lemma parse_instruction_line_counters line st :
  counters_agree st → wp (parse_instruction_line env line st) counters_agree.
Proof.
  intros H. cbv beta delta [parse_instruction_line].
  inv_walk H ltac:(first [apply function_boundary_counters
                         | apply dma_ordering_counters]).
Qed.

Lemma parse_parameter_counters line param_tag st :
  counters_agree st → wp (parse_parameter env line param_tag st) counters_agree.
Proof.
  intros H. cbv beta delta [parse_parameter].
  inv_walk H fail.
  all: by apply record_operand_counters.
Qed.

Lemma parse_result_counters line st :
  counters_agree st → wp (parse_result env line st) counters_agree.
Proof.
  intros H. cbv beta delta [parse_result].
  inv_walk H ltac:(first [apply handle_post_write_dependency_counters
                         | unfold dma_result; cbv zeta; repeat case_match]).
Qed.

Lemma parse_forward_counters line st :
  counters_agree st → wp (parse_forward env line st) counters_agree.
Proof.
  intros H. cbv beta delta [parse_forward].
  inv_walk H fail.
Qed.

End WithEnv.

End CounterFacts.

(** ** Footprints of the handlers *)

Module HandlerFrames.
Import Scan Engine Reasoning EngineFacts Walk.

Section WithEnv.
Context (env : Env).

Lemma parse_instruction_line_frames line st :
  wp (parse_instruction_line env line st)
    (λ st', erase_instruction st' = erase_instruction st).
Proof.
  cbv beta delta [parse_instruction_line].
  destruct (scan_instruction line) as [f|]; [|done].
  pose proof (eq_refl (erase_instruction st)) as HE.
  frame_walk erase_instruction HE.
Qed.

Lemma parse_parameter_frames line param_tag st :
  wp (parse_parameter env line param_tag st)
    (λ st', erase_parameter st' = erase_parameter st).
Proof.
  cbv beta delta [parse_parameter].
  pose proof (eq_refl (erase_parameter st)) as HE.
  frame_walk erase_parameter HE.
  all: apply wp_intro; intros st' H; apply record_operand_frames in H.
  all: by rewrite (frame_eq erase_parameter _ _ _ H).
Qed.

Lemma parse_result_frames line st :
  wp (parse_result env line st) (λ st', erase_result st' = erase_result st).
Proof.
  cbv beta delta [parse_result].
  pose proof (eq_refl (erase_result st)) as HE.
  frame_walk erase_result HE.
Qed.

Lemma parse_forward_frames line st :
  wp (parse_forward env line st) (λ st', erase_forward st' = erase_forward st).
Proof.
  cbv beta delta [parse_forward].
  pose proof (eq_refl (erase_forward st)) as HE.
  frame_walk erase_forward HE.
Qed.

End WithEnv.
End HandlerFrames.

(** ** The loop of the driver *)

Module DriverFacts.
Import Scan Engine Reasoning Driver Observations EngineFacts Walk.

Section WithEnv.
Context (env : Env).

(** A property of the builder that every handler keeps holds in every state
    the loop reaches. *)
Section Invariant.
Context (P : DDDG → Prop).
Context (P_labelmap : ∀ line st, P st → P (parse_labelmap_line line st)).
Context (P_instruction : ∀ line st,
  P st → wp (parse_instruction_line env line st) P).
Context (P_parameter : ∀ line param_tag st,
  P st → wp (parse_parameter env line param_tag st) P).
Context (P_result : ∀ line st, P st → wp (parse_result env line st) P).
Context (P_forward : ∀ line st, P st → wp (parse_forward env line st) P).

Lemma dispatch_invariant wholeline s :
  P (dddg s) → wp (dispatch env wholeline s) (λ next, P (dddg (next_state next))).
Proof.
  intros H. unfold dispatch.
  destruct (find "," wholeline) as [pos|]; [|by destruct (first_function_returned s)].
  cbv zeta. destruct (String.eqb _ "0").
  { destruct (parse_function_name _); [|done].
    destruct (is_function_returned _ _ _); [|done].
    apply wp_bind. eapply wp_mono; [apply P_instruction|done].
    by destruct (seen_first_line _). }
  destruct (String.eqb _ "r").
  { apply wp_bind. eapply wp_mono; [by apply P_result|done]. }
  destruct (String.eqb _ "f").
  { apply wp_bind. eapply wp_mono; [by apply P_forward|done]. }
  apply wp_bind. eapply wp_mono; [by apply P_parameter|done].
Qed.

Lemma round_invariant wholeline s :
  P (dddg s) → wp (round env wholeline s) (λ next, P (dddg (next_state next))).
Proof.
  intros H. unfold round.
  destruct (negb (labelmap_parsed_or_not_present s));
    [|by apply dispatch_invariant].
  destruct (negb (in_labelmap_section s)).
  - destruct (bool_decide _); [done|]. by apply dispatch_invariant.
  - destruct (bool_decide _); [done|].
    apply dispatch_invariant. by apply P_labelmap.
Qed.

Lemma rounds_invariant trace s :
  P (dddg s) → wp (rounds env trace s) (λ s', P (dddg s')).
Proof.
  revert s. induction trace as [|wholeline trace IH]; intros s H; [done|].
  cbn [rounds]. apply wp_bind.
  eapply wp_mono; [by apply round_invariant|].
  intros [s'|s'] H'; cbn in *; [by apply IH | done].
Qed.

Lemma reached_invariant s : P init → reached env s → P (dddg s).
Proof.
  intros Hinit [trace Htrace].
  by apply (wp_elim _ _ _ (rounds_invariant trace start Hinit)).
Qed.

End Invariant.
End WithEnv.

End DriverFacts.

(** ** Control dependences *)

Module ControlFacts.
Import Scan Engine Reasoning Driver Observations EngineFacts Walk CounterFacts.

Lemma insert_control_dependence_edges source dest st s t :
  control_edge (insert_control_dependence source dest st) s t ↔
  (s = source ∧ t = dest) ∨ control_edge st s t.
Proof.
  unfold control_edge, insert_control_dependence.
  pose proof (insert_sink_pairs source dest (control_edge_table st)) as [He _].
  destruct (insert_sink _ _ _) as [table inserted]. cbn [fst] in He.
  assert (control_edge_table
            (if inserted
             then st <| control_edge_table := table |> <| num_of_ctrl_dep ::= Z.succ |>
             else st <| control_edge_table := table |>) = table) as ->
    by by destruct inserted.
  rewrite He. set_solver.
Qed.

Lemma foldl_insert_control_dependence_edges (dest : DDDG → Z) l st s t :
  (∀ a d x, dest (insert_control_dependence a d x) = dest x) →
  control_edge
    (foldl (λ st node_id, insert_control_dependence node_id (dest st) st) st l)
    s t ↔
  (s ∈ l ∧ t = dest st) ∨ control_edge st s t.
Proof.
  intros Hdest. revert st. induction l as [|a l IH]; intros st; cbn [foldl].
  - set_solver.
  - rewrite IH, insert_control_dependence_edges, Hdest. set_solver.
Qed.

Section WithEnv.
Context (env : Env).

(** The call and return fence, field by field. *)
Lemma function_boundary_fence m st :
  is_ret_op m || is_call_op m = true →
  let current := current_node_id st in
  let st' := function_boundary env m st in
  nodes_since_last_ret st' = [] ∧
  last_ret st' = Some current ∧
  ∀ s t, control_edge st' s t ↔
         (s ∈ nodes_since_last_ret st ∧ t = current) ∨
         (last_ret st = Some s ∧ s ≠ current ∧ t = current) ∨
         control_edge st s t.
Proof.
  intros Hm. cbv zeta. unfold function_boundary. rewrite Hm.
  set (st1 := foldl _ _ _).
  assert (last_ret st1 = last_ret st) as Hl.
  { subst st1. by apply foldl_frame_proj with (E := erase_ctrl); [apply _|]. }
  assert (∀ s t, control_edge st1 s t ↔
                 (s ∈ nodes_since_last_ret st ∧ t = current_node_id st) ∨
                 control_edge st s t) as He
    by (intros; by apply (foldl_insert_control_dependence_edges (λ _, _))).
  clearbody st1.
  change (last_ret (st1 <| nodes_since_last_ret := [] |>)) with (last_ret st1).
  rewrite Hl. destruct (last_ret st) as [last|].
  - case_bool_decide as Hne.
    + split_and!; [by frame..|]. intros s t.
      change (control_edge (set last_ret ?f ?x) s t) with (control_edge x s t).
      rewrite insert_control_dependence_edges.
      change (control_edge (set nodes_since_last_ret ?f ?x) s t)
        with (control_edge x s t).
      rewrite He. naive_solver.
    + split_and!; [by frame..|]. intros s t.
      change (control_edge (set last_ret ?f (set nodes_since_last_ret ?g ?x)) s t)
        with (control_edge x s t).
      rewrite He. naive_solver.
  - split_and!; [by frame..|]. intros s t.
    change (control_edge (set last_ret ?f (set nodes_since_last_ret ?g ?x)) s t)
      with (control_edge x s t).
    rewrite He. naive_solver.
Qed.

Lemma function_boundary_other m st :
  is_ret_op m || is_call_op m = false →
  let st' := function_boundary env m st in
  nodes_since_last_ret st' =
    (if is_dma_op env m then nodes_since_last_ret st
     else nodes_since_last_ret st ++ [current_node_id st]) ∧
  last_ret st' = last_ret st ∧
  control_edge_table st' = control_edge_table st.
Proof.
  intros Hm. cbv zeta. unfold function_boundary. rewrite Hm.
  by destruct (is_dma_op env m).
Qed.

(** The DMA ordering, field by field. *)
Lemma dma_ordering_edges m st s t :
  control_edge (dma_ordering m st) s t ↔
  (m = LLVM_IR_DMAFence ∧ s ∈ last_dma_nodes st ∧ t = current_node_id st) ∨
  ((m = LLVM_IR_DMALoad ∨ m = LLVM_IR_DMAStore) ∧ last_dma_fence st ≠ -1 ∧
   s = last_dma_fence st ∧ t = current_node_id st) ∨
  control_edge st s t.
Proof.
  unfold dma_ordering. case_bool_decide as Hf.
  - change (control_edge (set last_dma_nodes ?f ?x) s t) with (control_edge x s t).
    rewrite (foldl_insert_control_dependence_edges last_dma_fence)
      by (intros; by frame).
    change (control_edge (set last_dma_fence ?f ?x) s t) with (control_edge x s t).
    change (last_dma_fence (set last_dma_fence ?f ?x)) with (f (last_dma_fence x)).
    subst m. naive_solver.
  - destruct (bool_decide (m = LLVM_IR_DMALoad) || bool_decide (m = LLVM_IR_DMAStore))
      eqn:Hd.
    + apply orb_true_iff in Hd.
      rewrite !bool_decide_eq_true in Hd.
      change (control_edge (set last_dma_nodes ?f ?x) s t) with (control_edge x s t).
      case_bool_decide as Hfence.
      * rewrite insert_control_dependence_edges. naive_solver.
      * naive_solver.
    + apply orb_false_iff in Hd.
      rewrite !bool_decide_eq_false in Hd. naive_solver.
Qed.

Lemma dma_ordering_lists m st :
  let st' := dma_ordering m st in
  last_dma_fence st' =
    (if bool_decide (m = LLVM_IR_DMAFence) then current_node_id st
     else last_dma_fence st) ∧
  last_dma_nodes st' =
    (if bool_decide (m = LLVM_IR_DMAFence) then []
     else if bool_decide (m = LLVM_IR_DMALoad) || bool_decide (m = LLVM_IR_DMAStore)
          then last_dma_nodes st ++ [current_node_id st]
          else last_dma_nodes st).
Proof.
  cbv zeta. unfold dma_ordering. case_bool_decide.
  - split; [|done].
    change (last_dma_fence (set last_dma_nodes ?f ?x)) with (last_dma_fence x).
    rewrite foldl_frame_proj with (E := erase_ctrl);
      [done | intros a st'; apply frames | done].
  - destruct (_ || _); [|done]. case_bool_decide; split; by frame.
Qed.

End WithEnv.
End ControlFacts.

(** ** Memory dependences *)

Module MemoryFacts.
Import Scan Engine Reasoning Driver Observations EngineFacts Walk CounterFacts.

Lemma post_write_at_edges addr sink st w t :
  memory_edge (post_write_at addr sink st) w t ↔
  (address_last_written st !! addr = Some w ∧ t = sink) ∨ memory_edge st w t.
Proof.
  unfold memory_edge, post_write_at.
  destruct (address_last_written st !! addr) as [source|]; [|naive_solver].
  pose proof (insert_sink_pairs source sink (memory_edge_table st)) as [He _].
  destruct (insert_sink _ _ _) as [table inserted]. cbn [fst] in He.
  assert (memory_edge_table
            (if inserted
             then st <| memory_edge_table := table |> <| num_of_mem_dep ::= Z.succ |>
             else st <| memory_edge_table := table |>) = table) as ->
    by by destruct inserted.
  rewrite He. set_solver.
Qed.

Lemma post_write_from_edges rounds : ∀ addr sink st w t,
  memory_edge (post_write_from rounds addr sink st) w t ↔
  (t = sink ∧ ∃ a, addr ≤ a < addr + Z.of_nat rounds ∧
                   address_last_written st !! a = Some w) ∨
  memory_edge st w t.
Proof.
  induction rounds as [|n IH]; intros addr sink st w t.
  - cbn [post_write_from]. split; [auto|]. intros [(_ & a & ? & _)|]; [lia|done].
  - cbn [post_write_from]. rewrite IH, post_write_at_edges.
    rewrite (frame_proj address_last_written _ (post_write_at addr sink) st)
      by reflexivity.
    split.
    + intros [(-> & a & Ha & Hw)|[[Hw ->]|He]]; [|left..|by right].
      * left. split; [done|]. exists a. split; [lia|done].
      * split; [done|]. exists addr. split; [lia|done].
    + intros [(-> & a & Ha & Hw)|He]; [|by auto].
      destruct (decide (a = addr)) as [->|Hne]; [by auto|].
      left. split; [done|]. exists a. split; [lia|done].
Qed.

(** The rounds of a range that does not wrap around. *)
Lemma range_rounds_no_wrap start size :
  0 ≤ start → 0 ≤ size → start + size < 2 ^ 64 →
  Z.of_nat (range_rounds start size) = size.
Proof.
  intros Hs Hz Hlt. unfold range_rounds.
  rewrite Z.mod_small by lia. lia.
Qed.

Lemma handle_post_write_dependency_edges start size sink st w t :
  memory_edge (handle_post_write_dependency start size sink st) w t ↔
  (t = sink ∧ ∃ a, start ≤ a < start + Z.of_nat (range_rounds start size) ∧
                   address_last_written st !! a = Some w) ∨
  memory_edge st w t.
Proof. apply post_write_from_edges. Qed.

Lemma mark_written_from_lookup rounds : ∀ addr st a,
  address_last_written (mark_written_from rounds addr st) !! a =
  if bool_decide (addr ≤ a < addr + Z.of_nat rounds)
  then Some (current_node_id st) else address_last_written st !! a.
Proof.
  induction rounds as [|n IH]; intros addr st a.
  - cbn [mark_written_from]. rewrite bool_decide_false by lia. done.
  - cbn [mark_written_from]. rewrite IH. psimpl.
    destruct (decide (a = addr)) as [->|Hne].
    + rewrite lookup_insert_eq.
      rewrite (bool_decide_true (addr ≤ addr < addr + Z.of_nat (S n))) by lia.
      by case_bool_decide.
    + rewrite lookup_insert_ne by done.
      repeat case_bool_decide; try done; lia.
Qed.

End MemoryFacts.

(** ** What an instruction line does *)

Module InstructionFacts.
Import Scan Engine Reasoning Driver Observations EngineFacts Walk ControlFacts.

Section WithEnv.
Context (env : Env).

Lemma function_boundary_mid m id st st1 :
  instruction_pre m id st st1 →
  instruction_mid env m id st (function_boundary env m st1).
Proof.
  intros (Hn & Hl & Hc & Hf & Hd & Hid & Hm).
  assert (∀ s t, control_edge st1 s t ↔ control_edge st s t) as Hst
    by (intros; unfold control_edge; by rewrite Hc).
  unfold instruction_mid, boundary_done, boundary_source.
  destruct (is_ret_op m || is_call_op m) eqn:Hrc.
  - destruct (function_boundary_fence env m st1 Hrc) as (Hn' & Hl' & He).
    rewrite Hid in Hl', He.
    split_and!; [done|done| |by frame..].
    intros s t. rewrite He, Hst, Hn, Hl. naive_solver.
  - destruct (function_boundary_other env m st1 Hrc) as (Hn' & Hl' & He).
    split_and!; [by rewrite Hn', Hn, Hid|by rewrite Hl', Hl| |by frame..].
    intros s t. unfold control_edge. rewrite He, Hc. naive_solver.
Qed.

Lemma dma_ordering_post m id st st1 :
  instruction_mid env m id st st1 → instruction_post env m id st (dma_ordering m st1).
Proof.
  intros ([Hn Hl] & He & Hf & Hd & Hid & Hm).
  destruct (dma_ordering_lists m st1) as [Hf' Hd']. cbv zeta in Hf', Hd'.
  unfold instruction_post, boundary_done.
  rewrite Hf', Hd', Hf, Hd, Hid.
  split_and!; [rewrite <- Hn; by frame|rewrite <- Hl; by frame| |done|done|
               by frame|rewrite <- Hm; by frame].
  intros s t. rewrite dma_ordering_edges, He, Hf, Hd, Hid.
  unfold dma_source. naive_solver.
Qed.

(** The node that [insertNode] appends. *)
Lemma insertNode_Ok id m ns ns' :
  insertNode id m ns = Ok ns' →
  id = Z.of_nat (length ns) ∧
  ∃ n, ns' = ns ++ [n] ∧ node_id n = id ∧ microop n = m.
Proof.
  unfold insertNode. case_bool_decide; [|done]. intros [= <-]. eauto.
Qed.

Lemma carry_tags_update_node (T : list (Z * Microop)) id f `{!KeepsTag f} st :
  node_tags st = T → node_tags (update_node id f st) = T.
Proof. by rewrite update_node_tags. Qed.

(** What an instruction line leaves behind. *)
Lemma parse_instruction_line_post line f st :
  scan_instruction line = Some f →
  let m := microop_of_code env (i_microop_code f) in
  let id := i_node_id f in
  wp (parse_instruction_line env line st) (λ st',
    id = Z.of_nat (length (nodes st)) ∧
    node_tags st' = node_tags st ++ [(id, m)] ∧
    curr_node st' = Some id ∧
    parameter_value_per_inst st' = [] ∧
    instruction_post env m id st st').
Proof.
  intros Hf m id. cbv beta delta [parse_instruction_line]. rewrite Hf.
  wp_let m' Hm. subst m'. fold m.
  wp_let st1 H1.
  assert (instruction_pre m id st st1) as HP by (by rewrite H1).
  assert (nodes st1 = nodes st) as HN by (by rewrite H1).
  clear H1.
  wp_let st2 H2. carry st2 H2 HP fail.
  assert (nodes st2 = nodes st) as HN2
    by (rewrite H2; by destruct (scan_loop_depth _)).
  clear H2 HN.
  destruct (negb _); [done|].
  wp_let curr_function Hc.
  wp_let st3 H3. carry st3 H3 HP fail.
  assert (nodes st3 = nodes st) as HN3 by (rewrite H3; by frame).
  clear H3 HN2.
  wp_bind ns Hns. apply insertNode_Ok in Hns as (Hid & n & -> & Hnid & Hnm).
  assert (current_node_id st3 = id) as Hcur by apply HP.
  rewrite Hcur, HN3 in Hid. rewrite Hcur in Hnid.
  wp_let st4 H4. carry st4 H4 HP fail.
  assert (node_tags st4 = node_tags st ++ [(id, m)]) as HT.
  { rewrite H4. unfold node_tags. psimpl.
    unfold RecordSettersUsingExistingGetters.const.
    rewrite HN3, fmap_app. cbn [fmap list_fmap]. by rewrite Hnid, Hnm. }
  assert (curr_node st4 = Some id) as HC by (rewrite H4; psimpl; by rewrite Hcur).
  clear H4 HN3 Hcur.
  wp_let st5 H5. carry st5 H5 HP fail.
  apply (carry_tags_update_node _ (current_node_id st4)
           (λ n, n <| line_num := i_line_num f |>
                   <| static_inst := i_instid f |>
                   <| static_function := curr_function |>
                   <| basic_block := substr_to
                        (default (String.length (i_bblockid f))
                           (find ":" (i_bblockid f))) (i_bblockid f) |>
                   <| loop_depth := current_loop_depth st4 |>)) in HT.
  rewrite <- H5 in HT.
  assert (curr_node st5 = Some id) as HC5 by (rewrite H5; by frame).
  clear H5 HC.
  wp_let st6 H6. apply function_boundary_mid in HP. rewrite <- H6 in HP.
  assert (node_tags st6 = node_tags st ++ [(id, m)] ∧ curr_node st6 = Some id)
    as [HT6 HC6] by (rewrite H6; split; by frame).
  clear H6 HT HC5.
  wp_pair st7 count H7. apply (f_equal fst) in H7. cbn [fst] in H7.
  symmetry in H7. carry st7 H7 HP fail.
  assert (node_tags st7 = node_tags st ++ [(id, m)] ∧ curr_node st7 = Some id)
    as [HT7 HC7].
  { rewrite H7.
    rewrite (frame_proj node_tags _ (λ st, (track_invocation _ _ st).1)),
            (frame_proj curr_node _ (λ st, (track_invocation _ _ st).1)); done. }
  clear H7 HT6 HC6.
  wp_let st8 H8. carry st8 H8 HP fail.
  assert (node_tags st8 = node_tags st ++ [(id, m)] ∧ curr_node st8 = Some id)
    as [HT8 HC8] by (rewrite H8; destruct (_ && _); split; by frame).
  clear H8 HT7 HC7.
  wp_let st9 H9. apply dma_ordering_post in HP. rewrite <- H9 in HP.
  assert (node_tags st9 = node_tags st ++ [(id, m)] ∧ curr_node st9 = Some id)
    as [HT9 HC9] by (rewrite H9; split; by frame).
  clear H9 HT8 HC8.
  wp_let st10 H10. carry st10 H10 HP fail.
  assert (node_tags st10 = node_tags st ++ [(id, m)] ∧ curr_node st10 = Some id)
    as [HT10 HC10] by (rewrite H10; split; by frame).
  clear H10 HT9 HC9.
  wp_let st11 H11. carry st11 H11 HP fail.
  apply (carry_tags_update_node _ (current_node_id st10)
           (λ n, n <| dynamic_invocation := count |>)) in HT10.
  rewrite <- H11 in HT10.
  assert (curr_node st11 = Some id) as HC11 by (rewrite H11; by frame).
  clear H11 HC10.
  cbn [wp]. split_and!; [done|by frame..|].
  by repeat pstrip.
Qed.

(** The same for a line that the handler gets through. *)
Lemma parse_instruction_line_Ok line st st' :
  parse_instruction_line env line st = Ok st' →
  ∃ f, scan_instruction line = Some f ∧
    i_node_id f = Z.of_nat (length (nodes st)) ∧
    node_tags st' =
      node_tags st ++ [(i_node_id f, microop_of_code env (i_microop_code f))] ∧
    curr_node st' = Some (i_node_id f) ∧
    parameter_value_per_inst st' = [] ∧
    instruction_post env (microop_of_code env (i_microop_code f)) (i_node_id f)
      st st'.
Proof.
  intros H. destruct (scan_instruction line) as [f|] eqn:Hf.
  - exists f. split; [done|].
    exact (wp_elim _ _ _ (parse_instruction_line_post line f st Hf) H).
  - cbv beta delta [parse_instruction_line] in H. by rewrite Hf in H.
Qed.

End WithEnv.
End InstructionFacts.

(** ** The program store between instruction lines *)

Module ShapeFacts.
Import Scan Engine Reasoning Invariants Driver Observations EngineFacts Walk
  CounterFacts HandlerFrames InstructionFacts DriverFacts.

Lemma wp_and {A} (r : result A) (P Q : A → Prop) :
  wp r P → wp r Q → wp r (λ a, P a ∧ Q a).
Proof. by destruct r. Qed.

Lemma same_tags_update_node T id f st :
  KeepsTag f → same_tags T st → same_tags T (update_node id f st).
Proof. intros ? <-. by apply update_node_tags. Qed.

Ltac tags_step :=
  first [ apply same_tags_update_node; [intros ?; reflexivity|]
        | unfold dma_result; cbv zeta; repeat case_match ].

(** [by_frame HE]: a field that the eraser of [HE] keeps has the same value
    on both sides. *)
Ltac by_frame HE :=
  lazymatch goal with
  | |- ?p _ = ?p _ => exact (frame_eq p _ _ _ HE (λ _, eq_refl))
  end.

(** The edges that [output_dddg] hands over are those of the tables. *)
Lemma elem_of_table_edges label label' table s t :
  (s, t, label') ∈ table_edges label table ↔
  label' = label ∧ (s, t) ∈ edge_pairs table.
Proof.
  unfold table_edges. rewrite elem_of_edge_pairs, list_elem_of_bind. split.
  - intros ([s' sinks] & Hin & Hm). apply elem_of_map_to_list in Hm.
    apply list_elem_of_fmap in Hin as (t' & [= -> -> ->] & Ht).
    apply elem_of_elements in Ht. eauto.
  - intros (-> & sinks & Hm & Ht). exists (s, sinks). split.
    + apply list_elem_of_fmap. exists t. by rewrite elem_of_elements.
    + by apply elem_of_map_to_list.
Qed.

Lemma elem_of_output_dddg st s t label :
  (s, t, label) ∈ output_dddg st ↔
  match label with
  | RegisterEdge p => (s, {| sink_node := t; par_id := p |}) ∈ register_edge_table st
  | MEMORY_EDGE => memory_edge st s t
  | CONTROL_EDGE => control_edge st s t
  end.
Proof.
  unfold output_dddg, memory_edge, control_edge.
  rewrite !elem_of_app, !elem_of_table_edges, list_elem_of_fmap. split.
  - intros [([s' [t' p]] & [= -> -> ->] & Hin)|[[-> H]|[-> H]]]; done.
  - destruct label as [p| |].
    + intros H. left. by exists (s, {| sink_node := t; par_id := p |}).
    + intros H. right. by left.
    + intros H. right. by right.
Qed.

(** What [build_initial_dddg] hands over after a flush. *)
Lemma build_initial_dddg_flushed env trace b edges :
  build_initial_dddg env trace = Ok b → added_edges b = Some edges →
  ∃ s, reached env s ∧ final b = dddg s ∧ edges = output_dddg (dddg s).
Proof.
  unfold build_initial_dddg. intros Hb He.
  destruct (rounds env trace start) as [s|] eqn:Hs; [|done].
  rewrite bind_Ok_l in Hb.
  destruct (seen_first_line s); injection Hb as <-; cbn in He; [|done].
  injection He as <-. exists s. split; [by exists trace|done].
Qed.

Section WithEnv.
Context (env : Env).

Lemma store_address_tags T st :
  same_tags T st → wp (store_address st) (same_tags T).
Proof.
  intros H. cbv beta delta [store_address]. inv_walk H tags_step.
Qed.

Lemma record_operand_tags T f param_tag st :
  same_tags T st → wp (record_operand env f param_tag st) (same_tags T).
Proof.
  intros H. cbv beta delta [record_operand].
  inv_walk H tags_step. by apply store_address_tags.
Qed.

Lemma parse_parameter_tags T line param_tag st :
  same_tags T st → wp (parse_parameter env line param_tag st) (same_tags T).
Proof.
  intros H. cbv beta delta [parse_parameter].
  inv_walk H tags_step.
  all: by apply record_operand_tags.
Qed.

Lemma parse_result_tags T line st :
  same_tags T st → wp (parse_result env line st) (same_tags T).
Proof.
  intros H. cbv beta delta [parse_result]. inv_walk H tags_step.
Qed.

(** Parameter, result and forward lines leave the nodes, the current node
    and the control bookkeeping alone. *)
Lemma parse_parameter_stable line param_tag st :
  wp (parse_parameter env line param_tag st) (stable st).
Proof.
  apply wp_intro. intros st' H.
  pose proof (wp_elim _ _ _ (parse_parameter_tags _ line param_tag st eq_refl) H)
    as HT.
  pose proof (wp_elim _ _ _ (parse_parameter_frames env line param_tag st) H)
    as HE.
  unfold stable. split_and!; [done|by_frame HE..].
Qed.

Lemma parse_result_stable line st :
  wp (parse_result env line st) (stable st).
Proof.
  apply wp_intro. intros st' H.
  pose proof (wp_elim _ _ _ (parse_result_tags _ line st eq_refl) H) as HT.
  pose proof (wp_elim _ _ _ (parse_result_frames env line st) H) as HE.
  unfold stable. split_and!; [done|by_frame HE..].
Qed.

Lemma parse_forward_stable line st :
  wp (parse_forward env line st) (stable st).
Proof.
  apply wp_intro. intros st' H.
  pose proof (wp_elim _ _ _ (parse_forward_frames env line st) H) as HE.
  unfold stable, node_tags. split_and!; [|by_frame HE..].
  f_equal. by_frame HE.
Qed.

(** The shape of the program store. *)
Lemma shape_stable st st' : stable st st' → shape st → shape st'.
Proof.
  unfold shape. by intros (-> & -> & -> & -> & _).
Qed.

Lemma shape_init : shape init.
Proof. by split_and!. Qed.

Lemma parse_instruction_line_shape line st :
  shape st → wp (parse_instruction_line env line st) shape.
Proof.
  intros (Hc & Hid & _). cbv beta delta [parse_instruction_line].
  destruct (scan_instruction line) as [f|] eqn:Hf; [|done].
  pose proof (parse_instruction_line_post env line f st Hf) as H.
  cbv beta delta [parse_instruction_line] in H. rewrite Hf in H.
  eapply wp_mono; [exact H|]. clear H. cbv beta zeta.
  intros st' (Hlen & HT & HC & _ & _ & _ & _ & _ & Hcur & Hm).
  unfold shape. rewrite HT, HC, Hm, Hcur.
  unfold node_tags in Hlen, Hc, Hid |- *. 
  split_and!.
  - rewrite length_app, length_fmap. cbn [length]. lia.
  - intros i p [[_ Hp]|[-> <-]]%lookup_snoc_Some; [by apply Hid|].
    cbn [fst]. by rewrite length_fmap.
  - intros p. rewrite last_snoc. by intros [= <-].
Qed.

End WithEnv.
End ShapeFacts.

(** ** The DMA ordering along the trace *)

Module DmaOrderFacts.
Import Scan Engine Reasoning Invariants Driver Observations EngineFacts Walk
  HandlerFrames InstructionFacts ShapeFacts.

Lemma fence_at_snoc T m i :
  fence_at (T ++ [m]) i ↔
  fence_at T i ∨ (i = length T ∧ m = LLVM_IR_DMAFence).
Proof.
  unfold fence_at. rewrite lookup_snoc_Some. split.
  - intros [[_ H]|[-> ->]]; eauto.
  - intros [H|[-> ->]]; [left|by right].
    split; [by eapply lookup_lt_Some|done].
Qed.

Lemma transfer_at_snoc T m i :
  transfer_at (T ++ [m]) i ↔
  transfer_at T i ∨
  (i = length T ∧ (m = LLVM_IR_DMALoad ∨ m = LLVM_IR_DMAStore)).
Proof.
  unfold transfer_at. rewrite !lookup_snoc_Some. split.
  - intros [[[_ H]|[-> ->]]|[[_ H]|[-> ->]]]; eauto.
  - intros [[H|H]|[-> [-> | ->]]]; eauto.
    + left. left. split; [by eapply lookup_lt_Some|done].
    + right. left. split; [by eapply lookup_lt_Some|done].
Qed.

Lemma fence_at_lt T i : fence_at T i → (i < length T)%nat.
Proof. apply lookup_lt_Some. Qed.

Lemma transfer_at_lt T i : transfer_at T i → (i < length T)%nat.
Proof. intros [H|H]; by apply lookup_lt_Some in H. Qed.

Lemma transfer_not_fence T i : transfer_at T i → fence_at T i → False.
Proof. unfold transfer_at, fence_at. intros [H|H] H'; congruence. Qed.

(** Below the new node nothing changes. *)
Lemma fence_free_snoc_below T m i j :
  (j ≤ length T)%nat → fence_free (T ++ [m]) i j ↔ fence_free T i j.
Proof.
  intros Hj. unfold fence_free. split; intros H k Hk Hf.
  - apply (H k Hk). apply fence_at_snoc. by left.
  - apply fence_at_snoc in Hf as [Hf|[-> _]]; [by apply (H k Hk)|lia].
Qed.

(** Up to the end, the new node counts. *)
Lemma fence_free_snoc_end T m i :
  (i < length T)%nat →
  fence_free (T ++ [m]) i (length (T ++ [m])) ↔
  fence_free T i (length T) ∧ m ≠ LLVM_IR_DMAFence.
Proof.
  intros Hi. rewrite length_app. cbn [length]. unfold fence_free. split.
  - intros H. split.
    + intros k Hk Hf. apply (H k); [lia|]. apply fence_at_snoc. by left.
    + intros ->. apply (H (length T)); [lia|]. apply fence_at_snoc. by right.
  - intros [H Hm] k Hk [Hf|[-> ->]]%fence_at_snoc; [|done].
    apply (H k); [|done]. apply fence_at_lt in Hf. lia.
Qed.

(** One more node: the DMA ordering of [parse_instruction_line] keeps the
    bookkeeping in step. *)
Lemma dma_tracked_snoc T fence pending (E E' : Z → Z → Prop) m :
  dma_tracked T fence pending E →
  let id := Z.of_nat (length T) in
  (∀ s t, E s t → E' s t) →
  (m = LLVM_IR_DMAFence → ∀ s, s ∈ pending → E' s id) →
  (m = LLVM_IR_DMALoad ∨ m = LLVM_IR_DMAStore → fence ≠ -1 → E' fence id) →
  dma_tracked (T ++ [m])
    (if bool_decide (m = LLVM_IR_DMAFence) then id else fence)
    (if bool_decide (m = LLVM_IR_DMAFence) then []
     else if bool_decide (m = LLVM_IR_DMALoad) || bool_decide (m = LLVM_IR_DMAStore)
          then pending ++ [id] else pending)
    E'.
Proof.
  intros (Hp & Hf & Hdf & Hfd) id Hmono Hfence Htransfer.
  assert (∀ i, transfer_at T i → fence_free T i (length T) →
               Z.of_nat i ∈ pending) as Hp'.
  { intros i ? ?. apply Hp. eauto. }
  split_and!.
  - intros d. case_bool_decide as Hm.
    + split; [by intros ?%elem_of_nil|].
      intros (i & -> & [Ht|[-> [?|?]]]%transfer_at_snoc & Hfree); [|congruence..].
      apply fence_free_snoc_end in Hfree as [_ ?]; [done|].
      by apply transfer_at_lt.
    + destruct (bool_decide (m = LLVM_IR_DMALoad) ||
                bool_decide (m = LLVM_IR_DMAStore)) eqn:Ht.
      * apply orb_true_iff in Ht.
        rewrite !bool_decide_eq_true in Ht.
        rewrite elem_of_app, list_elem_of_singleton, Hp. split.
        -- intros [(i & -> & Hi & Hfree)| ->].
           ++ exists i. split_and!; [done| |].
              ** apply transfer_at_snoc. by left.
              ** apply fence_free_snoc_end; [by apply transfer_at_lt|done].
           ++ exists (length T). split_and!; [done| |].
              ** apply transfer_at_snoc. by right.
              ** intros k Hk. rewrite length_app in Hk. cbn [length] in Hk. lia.
        -- intros (i & -> & [Hi|[-> _]]%transfer_at_snoc & Hfree); [|by right].
           left. exists i. split_and!; [done..|].
           apply fence_free_snoc_end in Hfree as [? _]; [done|].
           by apply transfer_at_lt.
      * apply orb_false_iff in Ht.
        rewrite !bool_decide_eq_false in Ht. rewrite Hp. split.
        -- intros (i & -> & Hi & Hfree). exists i. split_and!; [done| |].
           ++ apply transfer_at_snoc. by left.
           ++ apply fence_free_snoc_end; [by apply transfer_at_lt|done].
        -- intros (i & -> & [Hi|[-> [?|?]]]%transfer_at_snoc & Hfree);
             [|by destruct Ht..].
           exists i. split_and!; [done..|].
           apply fence_free_snoc_end in Hfree as [? _]; [done|].
           by apply transfer_at_lt.
  - intros i [Hi|[-> Hm]]%fence_at_snoc Hfree.
    + apply fence_free_snoc_end in Hfree as [Hfree Hm]; [|by apply fence_at_lt].
      rewrite bool_decide_false by done. by apply Hf.
    + by rewrite bool_decide_true by done.
  - intros i j [Hi|[-> _]]%transfer_at_snoc [Hj|[-> Hm]]%fence_at_snoc Hij Hfree.
    + apply Hmono, Hdf; [done..|].
      apply (fence_free_snoc_below T m); [|done].
      apply fence_at_lt in Hj. lia.
    + apply (Hfence Hm), Hp'; [done|].
      by apply (fence_free_snoc_below T m).
    + apply fence_at_lt in Hj. lia.
    + lia.
  - intros i j [Hi|[-> _]]%fence_at_snoc [Hj|[-> Hm]]%transfer_at_snoc Hij Hfree.
    + apply Hmono, Hfd; [done..|].
      apply (fence_free_snoc_below T m); [|done].
      apply transfer_at_lt in Hj. lia.
    + apply (fence_free_snoc_below T m) in Hfree; [|done].
      pose proof (Hf i Hi Hfree) as Hlast.
      rewrite <- Hlast. apply (Htransfer Hm). lia.
    + apply transfer_at_lt in Hj. lia.
    + lia.
Qed.

Section WithEnv.
Context (env : Env).

Lemma dma_ordered_init : dma_ordered init.
Proof.
  unfold dma_ordered, dma_tracked, fence_at, transfer_at. cbn. split_and!.
  - intros d. split; [by intros ?%elem_of_nil|]. by intros (i & _ & [?|?] & _).
  - done.
  - by intros i j [?|?].
  - done.
Qed.

Lemma dma_ordered_stable st st' : stable st st' → dma_ordered st → dma_ordered st'.
Proof.
  unfold dma_ordered, control_edge. by intros (-> & _ & _ & _ & -> & -> & -> & _).
Qed.

Lemma parse_instruction_line_dma_ordered line st :
  dma_ordered st → wp (parse_instruction_line env line st) dma_ordered.
Proof.
  intros Hst. cbv beta delta [parse_instruction_line].
  destruct (scan_instruction line) as [f|] eqn:Hf; [|done].
  pose proof (parse_instruction_line_post env line f st Hf) as H.
  cbv beta delta [parse_instruction_line] in H. rewrite Hf in H.
  eapply wp_mono; [exact H|]. clear H. cbv beta zeta.
  intros st' (Hlen & HT & _ & _ & _ & He & Hfence & Hpending & _).
  unfold dma_ordered. rewrite HT, Hfence, Hpending, fmap_app. cbn [fmap list_fmap snd].
  assert (i_node_id f = Z.of_nat (length (node_tags st).*2)) as ->
    by (unfold node_tags; by rewrite !length_fmap).
  apply (dma_tracked_snoc _ _ _ (control_edge st)); [done|..].
  - intros s t Hs. apply He. by left.
  - intros Hm s Hs. apply He. right. split; [|right; by left].
    unfold node_tags. by rewrite !length_fmap.
  - intros Hm Hne. apply He. right. split; [|right; by right].
    unfold node_tags. by rewrite !length_fmap.
Qed.

Lemma reached_dma_ordered s : reached env s → dma_ordered (dddg s) ∧ shape (dddg s).
Proof.
  intros Hs.
  apply (DriverFacts.reached_invariant env (λ st, dma_ordered st ∧ shape st));
    [done| | | | |by split; [apply dma_ordered_init|apply shape_init]|done].
  - intros line st [Hd Hsh]. apply wp_and.
    + by apply parse_instruction_line_dma_ordered.
    + by apply parse_instruction_line_shape.
  - intros line param_tag st [Hd Hsh].
    eapply wp_mono; [apply parse_parameter_stable|].
    intros st' Hstable. split.
    + by apply (dma_ordered_stable st). + by apply (shape_stable st).
  - intros line st [Hd Hsh].
    eapply wp_mono; [apply parse_result_stable|].
    intros st' Hstable. split.
    + by apply (dma_ordered_stable st). + by apply (shape_stable st).
  - intros line st [Hd Hsh].
    eapply wp_mono; [apply parse_forward_stable|].
    intros st' Hstable. split.
    + by apply (dma_ordered_stable st). + by apply (shape_stable st).
Qed.

End WithEnv.
End DmaOrderFacts.

(** ** C10: the dependence counters *)

Module CounterClaims.
Import Scan Engine Reasoning Driver Observations Examples EngineFacts Walk
  CounterFacts DriverFacts.

(** C10: in every state the loop of [build_initial_dddg] reaches,
    [num_of_mem_dep] is the number of distinct (writer, sink) pairs in
    [memory_edge_table] and [num_of_ctrl_dep] the number of distinct
    (source, sink) pairs in [control_edge_table]; an insertion adds its pair
    to the table and tells the counter to move exactly when the pair was not
    there. *)
Theorem counters_count_distinct_pairs :
  (∀ env s, reached env s → counters_agree (dddg s)) ∧
  (∀ source sink table,
     edge_pairs (insert_sink source sink table).1 =
       {[(source, sink)]} ∪ edge_pairs table ∧
     ((insert_sink source sink table).2 = true ↔
      (source, sink) ∉ edge_pairs table)).
Proof.
  split; [|apply insert_sink_pairs].
  intros env s Hs. apply (reached_invariant env counters_agree); try done.
  - apply parse_instruction_line_counters.
  - apply parse_parameter_counters.
  - apply parse_result_counters.
  - apply parse_forward_counters.
Qed.

Lemma counters_count_distinct_pairs_witness :
  let s := match rounds (example_env false) store_load_trace start with
           | Ok s => s
           | Fatal _ => start
           end in
  counters_agree (dddg s).
Proof.
  intros s.
  apply (proj1 counters_count_distinct_pairs (example_env false) s).
  exists store_load_trace. vm_compute. reflexivity.
Defined.

End CounterClaims.

(** ** C6: the call and return fence *)

Module FenceClaims.
Import Scan Engine Reasoning Driver Observations Examples EngineFacts Walk
  ControlFacts.

Section WithEnv.
Context (env : Env).





End WithEnv.



End FenceClaims.

(** ** C2 and C8: results of DMA operations *)

Module DmaClaims.
Import Scan Engine Reasoning Driver Observations Examples EngineFacts Walk CounterFacts
  MemoryFacts.

Section WithEnv.
Context (env : Env).

(** The result branch of a DMA load, field by field. *)
Lemma dma_result_load st :
  curr_microop st = Some LLVM_IR_DMALoad →
  let access := dma_interface (parameter_value_per_inst st) in
  let start := (dma_base_addr access + dma_dst_off access) mod 2 ^ 64 in
  let st' := dma_result env st in
  memory_edge_table st' = memory_edge_table st ∧
  ∀ a, address_last_written st' !! a =
       if negb (isReadyMode env) &&
          bool_decide (start ≤ a < start + Z.of_nat (range_rounds start (dma_size access)))
       then Some (current_node_id st) else address_last_written st !! a.
Proof.
  intros Hm. cbv zeta. unfold dma_result.
  rewrite (frame_proj curr_microop _ (update_node _ _) st) by done.
  rewrite Hm, bool_decide_true by done.
  destruct (isReadyMode env); cbn [negb andb].
  - split; [by frame|]. intros a. by frame.
  - split; [by frame|]. intros a. rewrite mark_written_from_lookup. by frame.
Qed.

(** A result line on a DMA load. *)
Lemma parse_result_dma_load line f st :
  curr_node_microop st = Ok LLVM_IR_DMALoad →
  curr_microop st = Some LLVM_IR_DMALoad →
  scan_value false line = Some f →
  v_is_reg f ≠ 0 →
  let access := dma_interface (parameter_value_per_inst st) in
  let start := (dma_base_addr access + dma_dst_off access) mod 2 ^ 64 in
  ∃ st', parse_result env line st = Ok st' ∧
    memory_edge_table st' = memory_edge_table st ∧
    ∀ a, address_last_written st' !! a =
         if negb (isReadyMode env) &&
            bool_decide (start ≤ a < start + Z.of_nat (range_rounds start (dma_size access)))
         then Some (current_node_id st) else address_last_written st !! a.
Proof.
  intros Hnode Hm Hf Hreg. cbv beta delta [parse_result].
  rewrite Hnode, Hf. cbn [mbind result_bind is_fp_op andb]. cbv zeta.
  rewrite bool_decide_false by done.
  psimpl. rewrite Hm.
  rewrite !bool_decide_false by done.
  change (is_dma_op env LLVM_IR_DMALoad) with true. cbv iota.
  eexists. split; [done|].
  match goal with |- context [dma_result env ?x] => set (st2 := x) end.
  destruct (dma_result_load st2 Hm) as [He Ha]. split; [by rewrite He|].
  intros a. by rewrite Ha.
Qed.

(** A result line on a load: every byte of the access that has a last writer
    gives a memory edge from that writer. *)
Lemma parse_result_load line f st m mem_address :
  curr_node_microop st = Ok m →
  curr_microop st = Some LLVM_IR_Load →
  scan_value false line = Some f →
  v_is_reg f ≠ 0 →
  v_size f ≤ 64 →
  last (parameter_value_per_inst st) = Some mem_address →
  let mem_size := (Z.quot (v_size f) BYTE) mod 2 ^ 64 in
  ∃ st', parse_result env line st = Ok st' ∧
    address_last_written st' = address_last_written st ∧
    ∀ w t, memory_edge st' w t ↔
      (t = current_node_id st ∧
       ∃ a, mem_address ≤ a <
              mem_address + Z.of_nat (range_rounds mem_address mem_size) ∧
            address_last_written st !! a = Some w) ∨
      memory_edge st w t.
Proof.
  intros Hnode Hm Hf Hreg Hsize Hlast mem_size.
  change (wpt (parse_result env line st) (λ st',
    address_last_written st' = address_last_written st ∧
    ∀ w t, memory_edge st' w t ↔
      (t = current_node_id st ∧
       ∃ a, mem_address ≤ a <
              mem_address + Z.of_nat (range_rounds mem_address mem_size) ∧
            address_last_written st !! a = Some w) ∨
      memory_edge st w t)).
  cbv beta delta [parse_result].
  rewrite Hnode, Hf, bind_Ok_l. cbv beta.
  assert (same_memory_view st st) as HP by done.
  wp_let value_type Hvt.
  wp_let st1 H1. carry st1 H1 HP fail. clear H1.
  rewrite (bool_decide_false (v_is_reg f = 0)) by done.
  wp_let ref Href.
  wp_let st2 H2. carry st2 H2 HP fail. clear H2.
  destruct HP as (Ha & He & Hc & Hcm & Hs).
  rewrite Hcm, Hm, bool_decide_false, bool_decide_true by done.
  rewrite Hs, Hlast. wp_let msz Hsz. unfold create_mem_access.
  assert (value_type ≠ Vector) as Hnv.
  { rewrite Hvt. unfold value_type_of.
    replace (64 <? v_size f) with false by (symmetry; apply Z.ltb_ge; lia).
    by destruct (has_dot _). }
  destruct value_type; [| |done]; rewrite bind_Ok_l; cbv beta.
  all: apply wpt_Ok.
  all: split; [rewrite <- Ha; by frame|].
  all: intros w t; unfold memory_edge.
  all: rewrite (frame_proj memory_edge_table _ (update_node _ _)) by done.
  all: change ((w, t) ∈ edge_pairs (memory_edge_table ?x))
         with (memory_edge x w t).
  all: rewrite handle_post_write_dependency_edges.
  all: unfold memory_edge; by rewrite Hc, Ha, He, Hsz.
Qed.

End WithEnv.
(** C2 (as the code behaves): four operands give the first interface version
    and five the second, but another count is not fatal.  On a DMA load with
    three operands the result line is processed, the run goes on to its end,
    and the node gets the access (0, 0, 0, 0). *)
Theorem dma_unknown_version_returns :
  (∀ x base off size,
     dma_interface [x; base; off; size] =
     {| dma_base_addr := base; dma_src_off := off; dma_dst_off := off;
        dma_size := size |}) ∧
  (∀ x base src_off dst_off size,
     dma_interface [x; base; src_off; dst_off; size] =
     {| dma_base_addr := base; dma_src_off := src_off; dma_dst_off := dst_off;
        dma_size := size |}) ∧
  parameter_value_per_inst
    (after (example_env false) (take 4 dma_three_operands_trace)) =
    [4096; 0; 16] ∧
  ∃ b, build_initial_dddg (example_env false) dma_three_operands_trace = Ok b ∧
       dma_mem_access <$> nodes (final b) =
       [Some {| dma_base_addr := 0; dma_src_off := 0; dma_dst_off := 0;
                dma_size := 0 |}].
Proof.
  split_and!; [done|done|by vm_compute|].
  eexists. split; [by vm_compute|]. by vm_compute.
Qed.

(** C8: the result line of a DMA load whose range
    [base + dst_off, base + dst_off + size) does not wrap around is processed,
    and outside ready-mode it makes the node of the DMA load the last writer
    of every byte of the range and of no other address; in ready-mode it
    leaves [address_last_written] as it was.  In both modes it records no
    memory edge.  The result line of a load then records a memory edge from
    the last writer of every byte of its range to the load. *)
Theorem dma_load_last_writer env :
  (∀ line f st,
     curr_node_microop st = Ok LLVM_IR_DMALoad →
     curr_microop st = Some LLVM_IR_DMALoad →
     scan_value false line = Some f →
     v_is_reg f ≠ 0 →
     let access := dma_interface (parameter_value_per_inst st) in
     let start := dma_base_addr access + dma_dst_off access in
     0 ≤ start → 0 ≤ dma_size access → start + dma_size access < 2 ^ 64 →
     ∃ st', parse_result env line st = Ok st' ∧
       memory_edge_table st' = memory_edge_table st ∧
       ∀ a, address_last_written st' !! a =
            if negb (isReadyMode env) &&
               bool_decide (start ≤ a < start + dma_size access)
            then Some (current_node_id st)
            else address_last_written st !! a) ∧
  (∀ line f st m mem_address a writer,
     curr_node_microop st = Ok m →
     curr_microop st = Some LLVM_IR_Load →
     scan_value false line = Some f →
     v_is_reg f ≠ 0 →
     0 ≤ v_size f ≤ 64 →
     last (parameter_value_per_inst st) = Some mem_address →
     0 ≤ mem_address → mem_address + v_size f / BYTE < 2 ^ 64 →
     mem_address ≤ a < mem_address + v_size f / BYTE →
     address_last_written st !! a = Some writer →
     ∃ st', parse_result env line st = Ok st' ∧
            memory_edge st' writer (current_node_id st)).
Proof.
  split.
  - intros line f st Hnode Hm Hf Hreg access start Hs Hz Hlt.
    destruct (parse_result_dma_load env line f st Hnode Hm Hf Hreg)
      as (st' & Hst' & He & Ha).
    exists st'. split_and!; [done..|]. intros a. rewrite Ha.
    fold access. fold start. rewrite (Z.mod_small start) by lia.
    by rewrite range_rounds_no_wrap by lia.
  - intros line f st m mem_address a writer Hnode Hm Hf Hreg Hsize Hlast
      Hpos Hlt Ha Hw.
    assert (Z.quot (v_size f) BYTE = v_size f / BYTE) as Hq
      by (apply Z.quot_div_nonneg; unfold BYTE; lia).
    assert (0 ≤ v_size f / BYTE) by (apply Z.div_pos; unfold BYTE; lia).
    destruct (parse_result_load env line f st m mem_address
                Hnode Hm Hf Hreg (proj2 Hsize) Hlast) as (st' & Hst' & _ & He).
    exists st'. split; [done|]. apply He. left. split; [done|].
    exists a. split; [|done].
    rewrite Hq, Z.mod_small, range_rounds_no_wrap by lia. done.
Qed.

Lemma dma_load_last_writer_witness :
  let st := after (example_env false) dma_load_trace in
  (∃ st', parse_result (example_env false) dma_load_result st = Ok st' ∧
     memory_edge_table st' = memory_edge_table st ∧
     ∀ a, address_last_written st' !! a =
          if bool_decide (4096 ≤ a < 4096 + 16) then Some 0
          else address_last_written st !! a) ∧
  (let st2 :=
     after (example_env false)
       (dma_load_trace ++ [ln ("r," +:+ dma_load_result)] ++ load_trace) in
   ∃ st', parse_result (example_env false) load_result st2 = Ok st' ∧
          memory_edge st' 0 1).
Proof.
  split.
  - refine (proj1 (dma_load_last_writer (example_env false))
              dma_load_result
              {| v_size := 32; v_char_value := "0"; v_is_reg := 1;
                 v_label := "res"; v_prev_bbid := "" |}
              (after (example_env false) dma_load_trace) _ _ _ _ _ _ _);
      by vm_compute.
  - refine (proj2 (dma_load_last_writer (example_env false))
              load_result
              {| v_size := 32; v_char_value := "7"; v_is_reg := 1;
                 v_label := "v"; v_prev_bbid := "" |}
              _ LLVM_IR_Load 4100 4101 0 _ _ _ _ _ _ _ _ _ _);
      by vm_compute.
Defined.

End DmaClaims.

(** ** C3: the address operand of a store *)

Module StoreClaims.
Import Scan Engine Reasoning Driver Observations Examples EngineFacts Walk CounterFacts
  MemoryFacts.


Section WithEnv.
Context (env : Env).


End WithEnv.




End StoreClaims.

(** ** C5: the end of the trace *)

Module TerminusClaims.
Import Scan Engine Reasoning Driver Observations Examples EngineFacts Walk DriverFacts.

Section WithEnv.
Context (env : Env).

Lemma dispatch_flags wholeline s next :
  dispatch env wholeline s = Ok next →
  match find "," wholeline with
  | None =>
      next = (if first_function_returned s then Break s else Continue s)
  | Some pos_end_tag =>
      let tag := substr_to pos_end_tag wholeline in
      let line_left := substr_from (pos_end_tag + 1) wholeline in
      ∃ s', next = Continue s' ∧
        labelmap_parsed_or_not_present s' = true ∧
        if String.eqb tag "0" then
          ∃ f, scan_instruction line_left = Some f ∧
            seen_first_line s' = true ∧
            first_function s' =
              (if seen_first_line s then first_function s
               else i_static_function f) ∧
            first_function_returned s' =
              bool_decide (microop_of_code env (i_microop_code f) = LLVM_IR_Ret)
              && String.eqb (first_function s') (i_static_function f)
        else
          seen_first_line s' = seen_first_line s ∧
          first_function s' = first_function s ∧
          first_function_returned s' = first_function_returned s
  end.
Proof.
  unfold dispatch. destruct (find "," wholeline) as [pos|].
  2: { destruct (first_function_returned s); by intros [= <-]. }
  cbv zeta. destruct (String.eqb _ "0").
  { unfold parse_function_name, is_function_returned.
    destruct (scan_instruction _) as [f|]; [|done]. cbn.
    destruct (parse_instruction_line _ _ _) as [st'|]; [|done]. cbn.
    intros [= <-]. eexists. split; [done|].
    destruct (seen_first_line s) eqn:Hseen; (split; [done|]); exists f;
      (split; [done|]); cbn; by rewrite ?Hseen. }
  destruct (String.eqb _ "r").
  { destruct (parse_result _ _ _) as [st'|]; [|done]. cbn.
    intros [= <-]. eexists. by split. }
  destruct (String.eqb _ "f").
  { destruct (parse_forward _ _ _) as [st'|]; [|done]. cbn.
    intros [= <-]. eexists. by split. }
  destruct (parse_parameter _ _ _ _) as [st'|]; [|done]. cbn.
  intros [= <-]. eexists. by split.
Qed.

Lemma round_returned_after_scan wholeline s next :
  returned_after_scan s → round env wholeline s = Ok next →
  returned_after_scan (next_state next).
Proof.
  unfold returned_after_scan, round. intros Hs.
  assert (∀ s0, (first_function_returned s0 = true →
                 labelmap_parsed_or_not_present s0 = true) →
                dispatch env wholeline s0 = Ok next →
                first_function_returned (next_state next) = true →
                labelmap_parsed_or_not_present (next_state next) = true) as Hd.
  { intros s0 Hs0 Hnext%dispatch_flags.
    destruct (find "," wholeline).
    - by destruct Hnext as (s' & -> & Hp & _).
    - destruct (first_function_returned s0) eqn:E; subst next; cbn; auto.
      intros ?; congruence. }
  destruct (labelmap_parsed_or_not_present s) eqn:Hp; cbn [negb].
  { by apply Hd. }
  destruct (in_labelmap_section s); cbn [negb].
  - destruct (bool_decide _).
    + by intros [= <-].
    + apply Hd. cbn. intros ?%Hs. congruence.
  - destruct (bool_decide _).
    + intros [= <-]. cbn. intros ?%Hs. congruence.
    + apply Hd. intros ?%Hs. congruence.
Qed.

Lemma rounds_returned_after_scan trace : ∀ s s',
  returned_after_scan s → rounds env trace s = Ok s' → returned_after_scan s'.
Proof.
  induction trace as [|wholeline trace IH]; intros s s' Hs; cbn [rounds].
  - by intros [= <-].
  - intros (next & Hnext & Hrest)%bind_Ok.
    pose proof (round_returned_after_scan _ _ _ Hs Hnext) as Hs'.
    destruct next as [s1|s1]; cbn in Hs'; [by eapply IH | by simplify_eq].
Qed.

(** The loop ends at a line without a comma once the first function has
    returned. *)
Lemma rounds_stop before : ∀ s0 s blank rest,
  returned_after_scan s0 →
  rounds env before s0 = Ok s →
  first_function_returned s = true →
  find "," blank = None →
  rounds env (before ++ blank :: rest) s0 = Ok s.
Proof.
  induction before as [|wholeline before IH]; intros s0 s blank rest Hs0.
  - cbn [rounds app]. intros [= <-] Hret Hblank.
    unfold round. rewrite (Hs0 Hret). cbn [negb].
    unfold dispatch. by rewrite Hblank, Hret.
  - cbn [rounds app]. intros (next & Hnext & Hrest)%bind_Ok Hret Hblank.
    rewrite Hnext. cbn.
    pose proof (round_returned_after_scan _ _ _ Hs0 Hnext) as Hs'.
    destruct next as [s1|s1]; [by apply IH | done].
Qed.

End WithEnv.

(** C5, as amended: every tag-0 line sets [first_function_returned] to
    whether it is a Ret of the function of the first tag-0 line, every other
    tagged line leaves the flag alone, and the loop ends at the first line
    without a comma that it reaches with the flag set: the lines after that
    line contribute nothing.  Lines with a comma that follow the Ret are still
    processed. *)
Theorem trace_ends_at_tagless_line env :
  (∀ wholeline pos_end_tag s next,
     find "," wholeline = Some pos_end_tag →
     dispatch env wholeline s = Ok next →
     let tag := substr_to pos_end_tag wholeline in
     let line_left := substr_from (pos_end_tag + 1) wholeline in
     let s' := next_state next in
     if String.eqb tag "0" then
       ∃ f, scan_instruction line_left = Some f ∧
         first_function s' =
           (if seen_first_line s then first_function s
            else i_static_function f) ∧
         first_function_returned s' =
           bool_decide (microop_of_code env (i_microop_code f) = LLVM_IR_Ret)
           && String.eqb (first_function s') (i_static_function f)
     else first_function_returned s' = first_function_returned s) ∧
  (∀ before blank rest s,
     rounds env before start = Ok s →
     first_function_returned s = true →
     find "," blank = None →
     build_initial_dddg env (before ++ blank :: rest) =
     build_initial_dddg env before).
Proof.
  split.
  - intros wholeline pos s next Hpos Hnext%dispatch_flags. rewrite Hpos in Hnext.
    cbv zeta in *. destruct Hnext as (s' & -> & _ & H). cbn [next_state].
    destruct (String.eqb _ "0"); [|tauto].
    destruct H as (f & ? & ? & ? & ?). eauto.
  - intros before blank rest s Hs Hret Hblank. unfold build_initial_dddg.
    rewrite (rounds_stop env before start s blank rest); [by rewrite Hs|..];
      try done.
Qed.

Lemma trace_ends_at_tagless_line_witness :
  let env := example_env false in
  build_initial_dddg env (take 13 store_load_trace ++ drop 13 store_load_trace) =
  build_initial_dddg env (take 13 store_load_trace).
Proof.
  refine (proj2 (trace_ends_at_tagless_line (example_env false))
            (take 13 store_load_trace) (ln "") [ln "0,5,g,bb:0,i4,8,4"]
            (match rounds (example_env false) (take 13 store_load_trace) start
             with Ok s => s | Fatal _ => start end) _ _ _); by vm_compute.
Defined.

(** C5, as stated, fails: in [ret_call_trace] the first line is a Ret of the
    first function, and the line after it still adds node 1 and the control
    edge from node 0 to node 1. *)
Lemma records_after_ret_counterexample :
  let env := example_env false in
  is_function_returned env "1,f,bb:0,i0,1,0" "f" = Some true ∧
  (∃ b, build_initial_dddg env (take 1 ret_call_trace) = Ok b ∧
        length (nodes (final b)) = 1%nat ∧ added_edges b = Some []) ∧
  (∃ b, build_initial_dddg env ret_call_trace = Ok b ∧
        length (nodes (final b)) = 2%nat ∧
        added_edges b = Some [(0, 1, CONTROL_EDGE)]).
Proof.
  split_and!; [by vm_compute|..]; eexists; (split; [by vm_compute|]);
    by vm_compute.
Qed.

End TerminusClaims.

(** ** C7: DMA fences and the DMA transfers around them *)

Module DmaOrderClaims.
Import Scan Engine Reasoning Invariants Driver Observations Examples EngineFacts
  Walk ShapeFacts DmaOrderFacts.

Lemma op_at_tags st id m :
  op_at st id m ↔ 0 ≤ id ∧ (node_tags st).*2 !! Z.to_nat id = Some m.
Proof.
  unfold op_at, node_at, node_tags.
  rewrite <- list_fmap_compose, list_lookup_fmap.
  destruct (0 <=? id) eqn:Hid.
  - apply Z.leb_le in Hid. destruct (nodes st !! Z.to_nat id) as [n|]; cbn.
    + split; [by intros (? & [= <-] & <-)|intros [_ [= <-]]; eauto].
    + split; [by intros (? & [=] & _)|by intros [_ [=]]].
  - apply Z.leb_gt in Hid. split; [by intros (? & [=] & _)|lia].
Qed.

Lemma no_fence_between_free st a b :
  0 ≤ a → no_fence_between st a b →
  fence_free (node_tags st).*2 (Z.to_nat a) (Z.to_nat b).
Proof.
  intros Ha H k Hk Hf. apply (H (Z.of_nat k)); [lia|].
  apply op_at_tags. split; [lia|]. by rewrite Nat2Z.id.
Qed.

Lemma dma_ordered_edges st F D :
  dma_ordered st → op_at st F LLVM_IR_DMAFence → dma_transfer_at st D →
  (D < F → no_fence_between st D F → control_edge st D F) ∧
  (F < D → no_fence_between st F D → control_edge st F D).
Proof.
  intros (_ & _ & Hdf & Hfd) [HF Hfence]%op_at_tags HD.
  assert (0 ≤ D ∧ transfer_at (node_tags st).*2 (Z.to_nat D)) as [HD0 Htransfer].
  { destruct HD as [[? ?]%op_at_tags|[? ?]%op_at_tags]; (split; [done|]);
      [by left|by right]. }
  rewrite <- (Z2Nat.id D), <- (Z2Nat.id F) by done. split; intros Hlt Hfree.
  - apply Hdf; [done|done|lia|].
    apply no_fence_between_free; [lia|]. by rewrite !Z2Nat.id in Hfree.
  - apply Hfd; [done|done|lia|].
    apply no_fence_between_free; [lia|]. by rewrite !Z2Nat.id in Hfree.
Qed.

Lemma shape_node_ids st id n :
  shape st → node_at id (nodes st) = Some n → node_id n = id.
Proof.
  intros (_ & Hid & _). unfold node_at.
  destruct (0 <=? id) eqn:H0; [|done]. apply Z.leb_le in H0. intros Hn.
  specialize (Hid (Z.to_nat id) (node_id n, microop n)).
  cbn [fst] in Hid. rewrite Hid; [lia|].
  unfold node_tags. by rewrite list_lookup_fmap, Hn.
Qed.

(** C7, as amended: after the flush, for every DMA fence F there is a control
    edge D→F from every DMA transfer D issued since the previous fence, and a
    control edge F→D to every DMA transfer D that appears after F and before
    the next fence.  Nodes are named by their ids: the node at id [i] of the
    program store has [node_id] [i]. *)
Theorem dma_fence_ordering env trace b edges :
  build_initial_dddg env trace = Ok b →
  added_edges b = Some edges →
  (∀ id n, node_at id (nodes (final b)) = Some n → node_id n = id) ∧
  (∀ F D,
     op_at (final b) F LLVM_IR_DMAFence → dma_transfer_at (final b) D →
     (D < F → no_fence_between (final b) D F → (D, F, CONTROL_EDGE) ∈ edges) ∧
     (F < D → no_fence_between (final b) F D → (F, D, CONTROL_EDGE) ∈ edges)).
Proof.
  intros Hb He.
  destruct (build_initial_dddg_flushed env trace b edges Hb He)
    as (s & Hs & -> & ->).
  destruct (reached_dma_ordered env s Hs) as [Hd Hsh]. split.
  - intros id n. by apply shape_node_ids.
  - intros F D HF HD.
    destruct (dma_ordered_edges (dddg s) F D Hd HF HD) as [H1 H2].
    split; intros Hlt Hfree; apply elem_of_output_dddg; auto.
Qed.

Lemma dma_fence_ordering_witness :
  let env := example_env false in
  ∃ b edges,
    build_initial_dddg env dma_fence_trace = Ok b ∧
    added_edges b = Some edges ∧
    (0, 2, CONTROL_EDGE) ∈ edges ∧ (1, 2, CONTROL_EDGE) ∈ edges ∧
    (2, 3, CONTROL_EDGE) ∈ edges.
Proof.
  pose (env := example_env false).
  pose (b := {| final := after env dma_fence_trace;
                added_edges := Some (output_dddg (after env dma_fence_trace)) |}).
  assert (build_initial_dddg env dma_fence_trace = Ok b) as Hb by (by vm_compute).
  assert (added_edges b = Some (output_dddg (after env dma_fence_trace)))
    as He by reflexivity.
  assert (op_at (final b) 2 LLVM_IR_DMAFence) as HF
    by (eexists; split; by vm_compute).
  assert (∀ a c, 2 ≤ a ∨ c ≤ 2 → no_fence_between (final b) a c) as Hfree.
  { intros a c Hac k Hk [n [Hn Hm]]. unfold node_at in Hn.
    destruct (0 <=? k) eqn:H0; [|done]. apply Z.leb_le in H0.
    destruct (Z.to_nat k) as [|[|[|[|i]]]] eqn:Hi;
      [vm_compute in Hn; injection Hn as <-; discriminate Hm..| |
       vm_compute in Hn; injection Hn as <-; discriminate Hm|
       vm_compute in Hn; discriminate Hn].
    lia. }
  assert (∀ D, D = 0 ∨ D = 1 ∨ D = 3 → dma_transfer_at (final b) D) as HD.
  { intros D [-> | [-> | ->]]; [left|left|right]; eexists; split; by vm_compute. }
  destruct (dma_fence_ordering env dma_fence_trace b _ Hb He) as [_ H].
  exists b, (output_dddg (after env dma_fence_trace)).
  split_and!; [exact Hb|exact He|..].
  - apply (H 2 0 HF); [apply HD|..]; [lia|lia|apply Hfree; lia].
  - apply (H 2 1 HF); [apply HD|..]; [lia|lia|apply Hfree; lia].
  - apply (H 2 3 HF); [apply HD|..]; [lia|lia|apply Hfree; lia].
Defined.

(** C7, as stated, fails: in [two_fences_trace] node 0 is a DMA fence and
    node 2 a DMA load that appears after it, and the only edge flushed is the
    one from the second fence, node 1, to node 2. *)
Lemma fence_before_fence_counterexample :
  let env := example_env false in
  ∃ b, build_initial_dddg env two_fences_trace = Ok b ∧
       op_at (final b) 0 LLVM_IR_DMAFence ∧
       op_at (final b) 2 LLVM_IR_DMALoad ∧
       added_edges b = Some [(1, 2, CONTROL_EDGE)] ∧
       (0, 2, CONTROL_EDGE) ∉ [(1, 2, CONTROL_EDGE)].
Proof.
  eexists. split; [by vm_compute|].
  split_and!; [eexists; split; by vm_compute..|by vm_compute|].
  by intros [=]%list_elem_of_singleton.
Qed.

End DmaOrderClaims.

(** ** Edges and the order of the trace *)

Module BoundFacts.
Import Scan Engine Reasoning Invariants Driver Observations EngineFacts Walk
  CounterFacts HandlerFrames ControlFacts MemoryFacts InstructionFacts
  ShapeFacts DriverFacts.

(** [curr_microop] is the microop of the current node. *)
Lemma shape_current_node st n :
  shape st → node_at (current_node_id st) (nodes st) = Some n →
  curr_node st = Some (current_node_id st) ∧ curr_microop st = Some (microop n).
Proof.
  intros (Hc & _ & Hlast) Hn. unfold node_at in Hn.
  destruct (0 <=? current_node_id st) eqn:H0; [|done]. apply Z.leb_le in H0.
  apply (Hlast (node_id n, microop n)).
  unfold node_tags in Hc |- *. rewrite length_fmap in Hc.
  rewrite last_lookup, length_fmap, list_lookup_fmap.
  replace (pred (length (nodes st))) with (Z.to_nat (current_node_id st)) by lia.
  by rewrite Hn.
Qed.

Lemma shape_curr_node_microop st m :
  shape st → curr_node_microop st = Ok m → curr_microop st = Some m.
Proof.
  intros Hs. unfold curr_node_microop.
  destruct (curr_node st) as [id|] eqn:Hid; [|done].
  destruct (node_at id (nodes st)) as [n|] eqn:Hn; [|done]. intros [= <-].
  assert (id = current_node_id st) as ->.
  { destruct Hs as (_ & _ & Hlast).
    destruct (last (node_tags st)) as [p|] eqn:Hp.
    - destruct (Hlast p eq_refl) as [? _]. congruence.
    - apply last_None in Hp. unfold node_tags in Hp.
      apply fmap_nil_inv in Hp. unfold node_at in Hn. rewrite Hp in Hn.
      by destruct (0 <=? id). }
  by apply (shape_current_node st n).
Qed.

(** *** Memory edges *)

Lemma memory_bound_ext st st' :
  node_tags st' = node_tags st →
  current_node_id st' = current_node_id st →
  curr_node st' = curr_node st →
  curr_microop st' = curr_microop st →
  parameter_value_per_inst st' = parameter_value_per_inst st →
  address_last_written st' = address_last_written st →
  memory_edge_table st' = memory_edge_table st →
  memory_bound st → memory_bound st'.
Proof.
  unfold memory_bound, shape, memory_edge. by intros -> -> -> -> -> -> ->.
Qed.

Lemma memory_bound_update_node id f st :
  KeepsTag f → memory_bound st → memory_bound (update_node id f st).
Proof.
  intros ?. apply memory_bound_ext; [by apply update_node_tags|by frame..].
Qed.

Lemma memory_bound_push v st :
  memory_bound st →
  memory_bound (st <| parameter_value_per_inst ::= (λ l, l ++ [v]) |>).
Proof.
  intros (Hs & Ha & He). split_and!; [done| |done].
  intros a w Hw. destruct (Ha a w Hw) as [Hle Heq]. split; [done|].
  intros Hc. destruct (Heq Hc) as [?|[? Hh]]; [by left|right].
  split; [done|]. psimpl.
  by destruct (parameter_value_per_inst st).
Qed.

(** The memory edges to the current node come from earlier nodes when the
    current node is not the last writer of a byte of the range. *)
Lemma handle_post_write_dependency_bound start size st :
  memory_bound st →
  (∀ a, start ≤ a < start + Z.of_nat (range_rounds start size) →
        address_last_written st !! a ≠ Some (current_node_id st)) →
  memory_bound (handle_post_write_dependency start size (current_node_id st) st).
Proof.
  intros (Hs & Ha & He) Hrange. split_and!.
  - by rewrite (frame_proj shape _ (handle_post_write_dependency _ _ _) st).
  - by frame.
  - intros s t [(-> & a & Hin & Hw)|H]%handle_post_write_dependency_edges;
      [|by apply He].
    destruct (Ha a s Hw) as [Hle _]. specialize (Hrange a Hin).
    assert (s ≠ current_node_id st) by congruence. lia.
Qed.

Lemma mark_written_from_bound rounds addr st :
  memory_bound st → curr_microop st = Some LLVM_IR_DMALoad →
  memory_bound (mark_written_from rounds addr st).
Proof.
  intros (Hs & Ha & He) Hm. split_and!.
  - by rewrite (frame_proj shape _ (mark_written_from _ _) st).
  - intros a w. rewrite mark_written_from_lookup. frame.
    case_bool_decide; [|by apply Ha]. intros [= <-]. split; [done|]. by left.
  - by frame.
Qed.

Section WithEnv.
Context (env : Env).

Lemma dma_result_bound st :
  memory_bound st →
  (∀ m, curr_microop st = Some m → is_dma_op env m = true) →
  memory_bound (dma_result env st).
Proof.
  intros H Hdma. unfold dma_result. cbv zeta.
  set (st1 := update_node _ _ st).
  assert (memory_bound st1) as H1 by (by apply memory_bound_update_node).
  assert (curr_microop st1 = curr_microop st) as Hcm by (subst st1; by frame).
  case_bool_decide as Hload.
  - destruct (negb _); [|done]. by apply mark_written_from_bound.
  - apply handle_post_write_dependency_bound; [done|].
    intros a _ Hw. destruct H1 as (_ & Ha & _).
    destruct (Ha a _ Hw) as [_ Heq].
    destruct (Heq eq_refl) as [?|[Hst _]]; [done|].
    rewrite Hcm in Hst. by apply Hdma in Hst.
Qed.

Lemma memory_bound_store_write a st :
  memory_bound st → curr_microop st = Some LLVM_IR_Store →
  head (parameter_value_per_inst st) = Some a →
  memory_bound (st <| address_last_written ::= <[a := current_node_id st]> |>).
Proof.
  intros (Hs & Ha & He) Hm Hh. split_and!; [done| |done].
  intros a' w. psimpl. destruct (decide (a' = a)) as [->|Hne].
  - rewrite lookup_insert_eq. intros [= <-]. split; [done|]. by right.
  - rewrite lookup_insert_ne by done. apply Ha.
Qed.

Lemma store_address_bound st :
  memory_bound st → curr_microop st = Some LLVM_IR_Store →
  parameter_value_per_inst st ≠ [] →
  wp (store_address st) memory_bound.
Proof.
  intros H Hm Hne. unfold store_address. cbv zeta.
  destruct (parameter_value_per_inst st) as [|a l] eqn:Hl; [done|].
  change (default 0 (head (a :: l))) with a.
  assert (head (parameter_value_per_inst st) = Some a) as Hh by (by rewrite Hl).
  destruct (address_last_written st !! a) as [w|] eqn:Hw.
  - destruct (node_at w (nodes st)) as [writer|] eqn:Hwr; [|done]. cbn [wp].
    destruct (is_dma_load (microop writer)) eqn:Hdl.
    + assert (memory_bound
                (handle_post_write_dependency a
                   ((default 0 (last (parameter_size_per_inst st)) ÷ BYTE)
                    `mod` 2 ^ 32) (current_node_id st) st)) as H1.
      { apply handle_post_write_dependency_bound; [done|].
        intros a' _ Hw'. destruct H as (Hs & Ha & _).
        destruct (Ha a' _ Hw') as [_ Heq].
        destruct (Heq eq_refl) as [?|[_ Hh']]; [congruence|].
        assert (a' = a) as -> by congruence.
        assert (w = current_node_id st) as -> by congruence.
        destruct (shape_current_node st writer Hs Hwr) as [_ Hcm].
        assert (microop writer = LLVM_IR_Store) as Hst by congruence.
        by rewrite Hst in Hdl. }
      set (st1 := handle_post_write_dependency _ _ _ _) in *.
      apply memory_bound_store_write; [done|subst st1; by frame..].
    + by apply memory_bound_store_write.
  - cbn [wp]. by apply memory_bound_store_write.
Qed.

Lemma record_operand_bound f param_tag st :
  memory_bound st → wp (record_operand env f param_tag st) memory_bound.
Proof.
  intros H. cbv beta delta [record_operand].
  wp_let value_type Hvt. wp_let operand Hv. wp_let st1 H1.
  assert (memory_bound st1) as HP
    by (rewrite H1; do 2 pstrip; by apply memory_bound_push).
  assert (parameter_value_per_inst st1 ≠ []) as Hne.
  { rewrite H1. psimpl. by destruct (parameter_value_per_inst st). }
  clear H1 H.
  destruct (_ && _); [done|].
  destruct (_ && _).
  { wp_let mem_address Ha. wp_let mem_size Hsz. wp_bind access Hacc. cbn [wp].
    by apply memory_bound_update_node. }
  destruct (_ && _) eqn:Hc; [|done].
  apply andb_true_iff in Hc as [_ Hc%bool_decide_eq_true].
  by apply store_address_bound.
Qed.

Lemma parse_parameter_memory_bound line param_tag st :
  memory_bound st → wp (parse_parameter env line param_tag st) memory_bound.
Proof.
  intros H. cbv beta delta [parse_parameter].
  inv_walk H fail.
  all: by apply record_operand_bound.
Qed.

Lemma parse_result_memory_bound line st :
  memory_bound st → wp (parse_result env line st) memory_bound.
Proof.
  intros H. cbv beta delta [parse_result].
  wp_bind node_microop Hnm.
  apply shape_curr_node_microop in Hnm; [|apply H].
  destruct (scan_value false line) as [f|]; [|done].
  wp_let value_type Hvt. wp_let st1 H1.
  assert (memory_bound st1 ∧ curr_microop st1 = Some node_microop) as [HP Hm].
  { rewrite H1. destruct (_ && _); [|done].
    split; [by apply memory_bound_update_node|by frame]. }
  clear H1 H Hnm.
  destruct (bool_decide (v_is_reg f = 0)); [done|].
  wp_let unique_reg_ref Hr. wp_let st2 H2.
  assert (memory_bound st2 ∧ curr_microop st2 = Some node_microop) as [HP2 Hm2]
    by (by rewrite H2).
  clear H2 HP Hm.
  case_bool_decide as Halloca; [done|].
  case_bool_decide as Hload.
  { destruct (last _) as [mem_address|]; [|done].
    wp_let mem_size Hsz. wp_bind access Hacc. wp_let st3 H3. cbn [wp].
    apply memory_bound_update_node; [intros ?; reflexivity|].
    rewrite H3. apply handle_post_write_dependency_bound; [done|].
    intros a _ Hw. destruct HP2 as (_ & Ha & _).
    destruct (Ha a _ Hw) as [_ Heq].
    destruct (Heq eq_refl) as [?|[? _]]; congruence. }
  destruct (is_dma_op env node_microop) eqn:Hdma; [|done]. cbn [wp].
  apply dma_result_bound; [done|]. intros m Hm'. congruence.
Qed.

Lemma parse_forward_memory_bound line st :
  memory_bound st → wp (parse_forward env line st) memory_bound.
Proof.
  intros H. apply wp_intro. intros st' Hst'.
  pose proof (wp_elim _ _ _ (parse_forward_frames env line st) Hst') as HE.
  pose proof (wp_elim _ _ _ (parse_forward_stable env line st) Hst')
    as (HT & _).
  revert H. apply memory_bound_ext; [done|by_frame HE..].
Qed.

Lemma parse_instruction_line_memory_bound line st :
  memory_bound st → wp (parse_instruction_line env line st) memory_bound.
Proof.
  intros (Hs & Ha & He). apply wp_intro. intros st' Hst'.
  pose proof (wp_elim _ _ _ (parse_instruction_line_shape env line st Hs) Hst')
    as Hs'.
  pose proof (wp_elim _ _ _ (parse_instruction_line_frames env line st) Hst')
    as HE.
  destruct (parse_instruction_line_Ok env line st st' Hst')
    as (f & _ & Hid & _ & _ & _ & _ & _ & _ & _ & Hcur & _).
  destruct Hs as (Hc & _). unfold node_tags in Hc. rewrite length_fmap in Hc.
  assert (address_last_written st' = address_last_written st) as Halw
    by by_frame HE.
  assert (memory_edge_table st' = memory_edge_table st) as Hmem by by_frame HE.
  split_and!; [done| |].
  - intros a w. rewrite Halw. intros Hw. destruct (Ha a w Hw) as [Hle _]. lia.
  - unfold memory_edge. by rewrite Hmem.
Qed.

End WithEnv.

(** *** Register edges *)

Lemma register_bound_write k w st :
  register_bound st → w ≤ current_node_id st →
  register_bound (st <| register_last_written ::= <[k := w]> |>).
Proof.
  intros (H0 & Hr & Hl & He) Hw. split_and!; [done| |done..].
  intros k' w'. psimpl. destruct (decide (k' = k)) as [->|Hne].
  - rewrite lookup_insert_eq. by intros [= <-].
  - rewrite lookup_insert_ne by done. apply Hr.
Qed.

Lemma register_bound_write_current k st :
  register_bound st →
  register_bound (st <| register_last_written ::= <[k := current_node_id st]> |>).
Proof. intros H. by apply register_bound_write. Qed.

Lemma register_bound_reset st :
  register_bound st → register_bound (st <| last_call_source := -1 |>).
Proof. by intros (H0 & Hr & Hl & He). Qed.

Lemma register_bound_read_register label param_tag st :
  register_bound st → register_bound (read_register label param_tag st).
Proof.
  intros H. unfold read_register. cbv zeta.
  set (st1 := if bool_decide (curr_microop st = Some LLVM_IR_Call)
              then _ else st).
  assert (register_bound st1) as (H0 & Hr & Hl & He)
    by (subst st1; by destruct (bool_decide _)).
  destruct (register_last_written st1 !! _) as [writer|] eqn:Hw.
  - apply Hr in Hw.
    assert (register_bound
              (st1 <| register_edge_table ::=
                       (λ t, t ++ [(writer, {| sink_node := current_node_id st1;
                                               par_id := param_tag |})]) |>
                   <| num_of_reg_dep ::= Z.succ |>)) as H1.
    { split_and!; [done..|]. intros s e. psimpl.
      intros [?|[= -> ->]%list_elem_of_singleton]%elem_of_app; [by apply He|done]. }
    destruct (bool_decide _); [|done].
    destruct H1 as (? & ? & ? & ?). by split_and!.
  - destruct (_ || _); [|by split_and!].
    by apply register_bound_write_current.
Qed.

Lemma register_bound_ext st st' :
  current_node_id st' = current_node_id st →
  register_last_written st' = register_last_written st →
  last_call_source st' = last_call_source st →
  register_edge_table st' = register_edge_table st →
  register_bound st → register_bound st'.
Proof. unfold register_bound. by intros -> -> -> ->. Qed.

(** *** Control edges *)

Lemma control_bound_stable st st' :
  stable st st' → control_bound st → control_bound st'.
Proof.
  unfold control_bound, control_edge.
  by intros (_ & -> & _ & _ & -> & -> & -> & -> & ->).
Qed.

Section WithEnv.
Context (env : Env).

Lemma parse_parameter_register_bound line param_tag st :
  register_bound st → wp (parse_parameter env line param_tag st) register_bound.
Proof.
  intros H. cbv beta delta [parse_parameter].
  inv_walk H ltac:(first [ apply register_bound_read_register
                         | apply register_bound_reset ]).
  all: apply wp_intro; intros st' HE%record_operand_frames.
  all: revert H; apply register_bound_ext; by_frame HE.
Qed.

Lemma parse_result_register_bound line st :
  register_bound st → wp (parse_result env line st) register_bound.
Proof.
  intros H. cbv beta delta [parse_result].
  inv_walk H ltac:(apply register_bound_write_current).
Qed.

Lemma parse_forward_register_bound line st :
  register_bound st → wp (parse_forward env line st) register_bound.
Proof.
  intros H. cbv beta delta [parse_forward].
  wp_bind node_microop Hnm. destruct (_ || _); [done|].
  destruct (scan_value false line) as [f|]; [|done].
  destruct (bool_decide _); [done|]. destruct (negb _); [done|].
  wp_let unique_reg_ref Hr. wp_let st1 H1.
  assert (register_bound st1) as HP
    by (rewrite H1; by destruct (unique_reg_in_caller_func st)).
  clear H1 H. wp_let tmp_written_inst Ht. cbn [wp].
  apply register_bound_write; [done|].
  rewrite Ht. destruct HP as (_ & _ & Hl & _). by case_bool_decide.
Qed.

Lemma parse_instruction_line_register_bound line st :
  shape st → register_bound st →
  wp (parse_instruction_line env line st) register_bound.
Proof.
  intros (Hc & _) (H0 & Hr & Hl & He). apply wp_intro. intros st' Hst'.
  pose proof (wp_elim _ _ _ (parse_instruction_line_frames env line st) Hst')
    as HE.
  destruct (parse_instruction_line_Ok env line st st' Hst')
    as (f & _ & Hid & _ & _ & _ & _ & _ & _ & _ & Hcur & _).
  unfold node_tags in Hc. rewrite length_fmap in Hc.
  assert (register_last_written st' = register_last_written st) as Hrlw
    by by_frame HE.
  assert (last_call_source st' = last_call_source st) as Hlcs by by_frame HE.
  assert (register_edge_table st' = register_edge_table st) as Hret
    by by_frame HE.
  unfold register_bound. rewrite Hrlw, Hlcs, Hret, Hcur.
  split_and!; [lia| |lia|done].
  intros k w Hw. apply Hr in Hw. lia.
Qed.

Lemma parse_instruction_line_control_bound line st :
  shape st → control_bound st →
  wp (parse_instruction_line env line st) control_bound.
Proof.
  intros (Hc & _) (Hn & Hl & Hd & Hf & He). apply wp_intro. intros st' Hst'.
  destruct (parse_instruction_line_Ok env line st st' Hst')
    as (f & _ & Hid & _ & _ & _ & [Hn' Hl'] & He' & Hf' & Hd' & Hcur & _).
  unfold node_tags in Hc. rewrite length_fmap in Hc.
  set (m := microop_of_code env (i_microop_code f)) in *.
  unfold control_bound. rewrite Hn', Hl', Hf', Hd', Hcur. split_and!.
  - intros x. destruct (_ || _); [by intros ?%elem_of_nil|].
    destruct (is_dma_op env m).
    + intros ?%Hn. lia.
    + intros [?%Hn| ->%list_elem_of_singleton]%elem_of_app; lia.
  - intros x. destruct (_ || _); [intros [= <-]; lia|]. intros ?%Hl. lia.
  - intros x. destruct (bool_decide (m = LLVM_IR_DMAFence));
      [by intros ?%elem_of_nil|].
    destruct (bool_decide (m = LLVM_IR_DMALoad) || bool_decide (m = LLVM_IR_DMAStore)).
    + intros [?%Hd| ->%list_elem_of_singleton]%elem_of_app; lia.
    + intros ?%Hd. lia.
  - destruct (bool_decide (m = LLVM_IR_DMAFence)); lia.
  - intros s t [H|[-> [[_ [H|[H ?]]]|[[_ H]|(_ & _ & ->)]]]]%He'.
    + by apply He.
    + apply Hn in H. lia.
    + apply Hl in H. lia.
    + apply Hd in H. lia.
    + lia.
Qed.

Lemma bounded_init : bounded init.
Proof.
  split; [|split].
  - split; [apply shape_init|split].
    + intros a w. cbn. by rewrite lookup_empty.
    + intros s t. unfold memory_edge. cbn. set_solver.
  - split_and!; [done| |done|].
    + intros k w. cbn. by rewrite lookup_empty.
    + intros s e. cbn. by intros ?%elem_of_nil.
  - split_and!; [| |  |done|].
    + intros x. cbn. by intros ?%elem_of_nil.
    + intros x. by cbn.
    + intros x. cbn. by intros ?%elem_of_nil.
    + intros s t. unfold control_edge. cbn. set_solver.
Qed.

(** Every state of the loop keeps its edges in the order of the trace. *)
Lemma reached_bounded s : reached env s → bounded (dddg s).
Proof.
  intros Hs. apply (reached_invariant env bounded); [done|..|done].
  - intros line st (Hm & Hr & Hc). pose proof (proj1 Hm) as Hsh.
    apply wp_and; [|apply wp_and].
    + by apply parse_instruction_line_memory_bound.
    + by apply parse_instruction_line_register_bound.
    + by apply parse_instruction_line_control_bound.
  - intros line param_tag st (Hm & Hr & Hc). apply wp_and; [|apply wp_and].
    + by apply parse_parameter_memory_bound.
    + by apply parse_parameter_register_bound.
    + eapply wp_mono; [apply parse_parameter_stable|].
      intros st' Hst'. by apply (control_bound_stable st).
  - intros line st (Hm & Hr & Hc). apply wp_and; [|apply wp_and].
    + by apply parse_result_memory_bound.
    + by apply parse_result_register_bound.
    + eapply wp_mono; [apply parse_result_stable|].
      intros st' Hst'. by apply (control_bound_stable st).
  - intros line st (Hm & Hr & Hc). apply wp_and; [|apply wp_and].
    + by apply parse_forward_memory_bound.
    + by apply parse_forward_register_bound.
    + eapply wp_mono; [apply parse_forward_stable|].
      intros st' Hst'. by apply (control_bound_stable st).
  - apply bounded_init.
Qed.

End WithEnv.
End BoundFacts.

(** ** C4: edges and the order of the trace *)

Module BoundClaims.
Import Scan Engine Reasoning Invariants Driver Observations Examples EngineFacts
  Walk ShapeFacts BoundFacts.

(** C4, as amended: every memory edge and every control edge flushed to the
    program store at the end of the trace has a source strictly less than its
    sink, and every register edge a source less than or equal to its sink. *)
Theorem edges_follow_trace_order env trace b edges e :
  build_initial_dddg env trace = Ok b →
  added_edges b = Some edges →
  e ∈ edges →
  follows_trace_order e.
Proof.
  intros Hb He Hin.
  destruct (build_initial_dddg_flushed env trace b edges Hb He)
    as (s & Hs & _ & ->).
  destruct (reached_bounded env s Hs) as ((_ & _ & Hm) & (_ & _ & _ & Hr) & Hc).
  destruct e as [[source sink] label]. apply elem_of_output_dddg in Hin.
  destruct label as [p| |]; cbn.
  - by apply Hr in Hin.
  - by apply Hm.
  - by apply Hc.
Qed.

Lemma edges_follow_trace_order_witness :
  follows_trace_order (1, 2, MEMORY_EDGE) ∧
  follows_trace_order (0, 2, RegisterEdge 1).
Proof.
  pose (env := example_env false).
  pose (b := {| final := after env store_load_trace;
                added_edges := Some (output_dddg (after env store_load_trace)) |}).
  assert (build_initial_dddg env store_load_trace = Ok b) as Hb
    by (by vm_compute).
  assert (added_edges b = Some (output_dddg (after env store_load_trace)))
    as He by reflexivity.
  split.
  - apply (edges_follow_trace_order env store_load_trace b _ _ Hb He).
    apply elem_of_output_dddg. unfold memory_edge. by vm_compute.
  - apply (edges_follow_trace_order env store_load_trace b _ _ Hb He).
    apply elem_of_output_dddg. vm_compute.
    apply list_elem_of_further, list_elem_of_here.
Defined.

(** C4, as stated, fails: in [store_pointer_trace] the address operand of
    the store names a register nobody has written, so the store becomes its
    writer, and the value operand reads the same register: the register edge
    flushed goes from node 0 to node 0. *)
Lemma register_self_edge_counterexample :
  let env := example_env false in
  ∃ b, build_initial_dddg env store_pointer_trace = Ok b ∧
       added_edges b = Some [(0, 0, RegisterEdge 1)] ∧
       ¬ 0 < 0.
Proof.
  eexists. split; [by vm_compute|]. split; [by vm_compute|lia].
Qed.

End BoundClaims.
